(** * Neural style transfer core (main.py): tensors, Gram matrix, loss taps,
      model assembly and the optimisation loop.

    The tensor library is modelled by what the program uses of it: a tensor is
    a shape together with its contiguous row-major storage, and the scalars are
    an abstract type with the arithmetic the program applies to them.  Theorems
    name the scalar laws they rely on, so each one says for which arithmetic it
    holds exactly (IEEE multiplication is commutative, IEEE addition is not
    associative, and a NaN compares with nothing).  The scalars are instantiated
    twice: by IEEE binary64 floats, the arithmetic of the tensor library, and
    by exact integers. *)

From Stdlib Require Import PrimFloat.
From Stdlib Require Uint63 FloatAxioms SpecFloat FloatOps.
From Stdlib Require Import String Ascii DecimalString Decimal.
From Stdlib Require Import List Arith Lia Bool ZArith Permutation.
Import ListNotations.

Set Implicit Arguments.

(** ** Scalars *)

Class Scalar (R : Type) : Type := {
  zero : R;
  one : R;
  add : R -> R -> R;
  sub : R -> R -> R;
  mul : R -> R -> R;
  div : R -> R -> R;
  of_nat : nat -> R;      (* a Python int used as a scalar operand *)
  leb : R -> R -> bool    (* x <= y *)
}.

Definition add_commutative {R} `{Scalar R} : Prop := forall x y : R, add x y = add y x.
Definition add_associative {R} `{Scalar R} : Prop :=
  forall x y z : R, add (add x y) z = add x (add y z).
Definition leb_total {R} `{Scalar R} : Prop :=
  forall x y : R, leb x y = false -> leb y x = true.
Definition zero_le_one {R} `{Scalar R} : Prop := leb (zero : R) one = true.
(** The order is total on the values that compare with themselves, which for
    IEEE floats are all but NaN. *)
Definition leb_total_on_numbers {R} `{Scalar R} : Prop :=
  forall x y : R, leb x x = true -> leb y y = true -> leb x y = false -> leb y x = true.
Definition bounds_are_numbers {R} `{Scalar R} : Prop :=
  leb (zero : R) zero = true /\ leb (one : R) one = true.

(** Exact integers, used to run the model on concrete inputs. *)
#[export] Instance Scalar_Z : Scalar Z := {
  zero := 0%Z; one := 1%Z;
  add := Z.add; sub := Z.sub; mul := Z.mul; div := Z.div;
  of_nat := Z.of_nat; leb := Z.leb
}.

(** IEEE binary64 floats with round-to-nearest, the arithmetic of a tensor of
    dtype [torch.float64]; [torch.float32] differs in precision only.  A
    Python int operand, here a product of dimensions below 2^63, is converted
    to the nearest float. *)
#[export] Instance Scalar_float : Scalar float := {
  zero := 0%float; one := 1%float;
  add := PrimFloat.add; sub := PrimFloat.sub; mul := PrimFloat.mul; div := PrimFloat.div;
  of_nat := fun n => PrimFloat.of_uint63 (Uint63.of_Z (Z.of_nat n));
  leb := PrimFloat.leb
}.

(** ** Exceptions and results *)

Record exn : Type := mkExn { exn_class : string; exn_msg : string }.

Inductive result (A : Type) : Type :=
| Ok (a : A)
| Raise (e : exn).
Arguments Ok {A} a.
Arguments Raise {A} e.

Definition rbind {A B} (r : result A) (k : A -> result B) : result B :=
  match r with
  | Ok a => k a
  | Raise e => Raise e
  end.

Declare Scope result_scope.
Delimit Scope result_scope with result.
Notation "'try!' x ':=' r 'in' k" := (rbind r (fun x => k))
  (at level 10, x name, r at level 100, k at level 200) : result_scope.
Local Open Scope result_scope.

Definition RuntimeError (msg : string) : exn := mkExn "RuntimeError" msg.
Definition ValueError (msg : string) : exn := mkExn "ValueError" msg.
Definition AttributeError (msg : string) : exn := mkExn "AttributeError" msg.

(** ** Tensors *)

Section Tensors.
Context {R : Type} `{SR : Scalar R}.

(** [shape] is what [size()] returns, [data] the storage in row-major order. *)
Record Tensor : Type := mkTensor { shape : list nat; data : list R }.

Definition numel (s : list nat) : nat := fold_right Nat.mul 1 s.

(** The representation invariant of a tensor. *)
Definition wf (t : Tensor) : Prop := length (data t) = numel (shape t).

Definition sum (l : list R) : R := fold_left add l zero.

(** [grid n p f] lists [f i j] for [i < n], [j < p], row by row. *)
Definition grid (n p : nat) (f : nat -> nat -> R) : list R :=
  flat_map (fun i => map (f i) (seq 0 p)) (seq 0 n).

Definition at_ (l : list R) (k : nat) : R := nth k l zero.

(** [input.view(s)] on contiguous storage, the only storage of this model:
    same data, new shape.  (On a tensor that is not contiguous the library
    may refuse the view; no such tensor is represented here.) *)
Definition view (t : Tensor) (s : list nat) : result Tensor :=
  if numel s =? numel (shape t) then Ok (mkTensor s (data t))
  else Raise (RuntimeError "shape is invalid for input size").

(** [x.t()]: a tensor of rank below 2 is returned as it is, a matrix is
    transposed, a higher rank is refused. *)
Definition t (x : Tensor) : result Tensor :=
  match shape x with
  | [] | [_] => Ok x
  | [n; m] => Ok (mkTensor [m; n] (grid m n (fun j i => at_ (data x) (i * m + j))))
  | _ => Raise (RuntimeError "t() expects a tensor with <= 2 dimensions")
  end.

(** [torch.mm(a, b)]: entry (i, j) is the sum over k of a[i,k] * b[k,j]. *)
Definition mm (a b : Tensor) : result Tensor :=
  match shape a, shape b with
  | [n; m], [m'; p] =>
      if m =? m' then
        Ok (mkTensor [n; p]
              (grid n p (fun i j =>
                 sum (map (fun k => mul (at_ (data a) (i * m + k)) (at_ (data b) (k * p + j)))
                          (seq 0 m)))))
      else Raise (RuntimeError "mat1 and mat2 shapes cannot be multiplied")
  | _, _ => Raise (RuntimeError "self must be a matrix")
  end.

(** [x.div(s)] for a number [s]. *)
Definition tdiv (x : Tensor) (s : R) : Tensor :=
  mkTensor (shape x) (map (fun v => div v s) (data x)).

(** ** Gram matrix (main.py, gram_matrix) *)

Definition gram_matrix (input : Tensor) : result Tensor :=
  match shape input with
  | [batch_size; num_features; height; width] =>
      try! features := view input [batch_size * num_features; height * width] in
      try! features_t := t features in
      try! gram := mm features features_t in
      Ok (tdiv gram (of_nat (batch_size * num_features * height * width)))
  | _ => Raise (ValueError "wrong number of values to unpack (expected 4)")
  end.

(** ** Broadcasting, as the elementwise operators and [mse_loss] apply it *)

Definition pad_shape (n : nat) (s : list nat) : list nat :=
  repeat 1 (n - length s) ++ s.

Definition broadcast_dim (a b : nat) : option nat :=
  if a =? b then Some a
  else if a =? 1 then Some b
  else if b =? 1 then Some a
  else None.

(** Shapes of equal rank, dimension by dimension. *)
Fixpoint broadcast_aligned (s1 s2 : list nat) : option (list nat) :=
  match s1, s2 with
  | [], [] => Some []
  | a :: s1', b :: s2' =>
      match broadcast_dim a b, broadcast_aligned s1' s2' with
      | Some d, Some r => Some (d :: r)
      | _, _ => None
      end
  | _, _ => None
  end.

(** The storage of a tensor of shape [src] expanded to shape [dst] (same rank):
    a dimension of size 1 is repeated, any other is walked chunk by chunk. *)
Fixpoint expand_data (src dst : list nat) (d : list R) : list R :=
  match src, dst with
  | a :: src', n :: dst' =>
      let chunk := numel src' in
      flat_map (fun i =>
                  expand_data src' dst'
                    (firstn chunk (skipn ((if a =? 1 then 0 else i) * chunk) d)))
               (seq 0 n)
  | _, _ => d
  end.

Definition broadcast_op (f : R -> R -> R) (x y : Tensor) : result Tensor :=
  let n := Nat.max (length (shape x)) (length (shape y)) in
  let sx := pad_shape n (shape x) in
  let sy := pad_shape n (shape y) in
  match broadcast_aligned sx sy with
  | Some s =>
      Ok (mkTensor s (map (fun ab => f (fst ab) (snd ab))
                          (combine (expand_data sx s (data x)) (expand_data sy s (data y)))))
  | None =>
      Raise (RuntimeError "The size of tensor a must match the size of tensor b")
  end.

(** [F.mse_loss(input, target)] with the default reduction: both operands are
    broadcast against each other, and the squared differences are averaged. *)
Definition mse_loss (input target : Tensor) : result R :=
  try! d := broadcast_op sub input target in
  Ok (div (sum (map (fun v => mul v v) (data d))) (of_nat (numel (shape d)))).

(** [x.clamp_(0, 1)], elementwise min(max(v, 0), 1). *)
Definition clamp01 (v : R) : R :=
  if leb v zero then zero else if leb one v then one else v.

Definition clamp_ (x : Tensor) : Tensor := mkTensor (shape x) (map clamp01 (data x)).

(** [nn.ReLU(inplace=False)], elementwise max(v, 0) into a new tensor. *)
Definition relu (x : Tensor) : Tensor :=
  mkTensor (shape x) (map (fun v => if leb v zero then zero else v) (data x)).

(** ** Normalization (main.py, class Normalization) *)

(** [torch.tensor(m).view(-1, 1, 1)]: the dimension written -1 is inferred as
    the number of elements divided by 1 * 1, which every count allows, zero
    included (an empty [m] gives a tensor of shape (0, 1, 1)). *)
Definition view_m11 (m : Tensor) : result Tensor :=
  view m [numel (shape m); 1; 1].

Definition Normalization_forward (mean std img : Tensor) : result Tensor :=
  try! centred := broadcast_op sub img mean in
  broadcast_op div centred std.

End Tensors.

Arguments Tensor R : clear implicits.

(** ** Layers of the feature extractor and modules of the assembled model *)

Section Modules.
Context {R : Type} `{SR : Scalar R}.

(** The kinds [get_style_model_and_losses] tests for with [isinstance]; [P] is
    what a layer carries (weights, kernel sizes).  [OtherLayer] stands for any
    module of another class, with its class name. *)
Inductive layer (P : Type) : Type :=
| Conv2d (p : P)
| ReLU (inplace : bool)
| MaxPool2d (p : P)
| BatchNorm2d (p : P)
| OtherLayer (class_name : string) (p : P).
Arguments ReLU {P} inplace.

Inductive tap_kind : Type := ContentLoss | StyleLoss.

(** A loss object: its class, the target fixed by [__init__], and the address
    of the cell that holds its [loss] attribute.  The same object is reachable
    from the model and from the list of losses, hence the address. *)
Record Tap : Type := mkTap { kind : tap_kind; target : Tensor R; cell : nat }.

Inductive Module (P : Type) : Type :=
| Normalization (mean std : Tensor R)
| NNLayer (l : layer P)
| LossModule (tp : Tap).
Arguments Normalization {P} mean std.
Arguments LossModule {P} tp.

(** [nn.Sequential]: the ordered dictionary of named modules. *)
Definition Sequential (P : Type) : Type := list (string * Module P).

(** [isinstance(m, ContentLoss) or isinstance(m, StyleLoss)]. *)
Definition is_loss {P} (m : Module P) : bool :=
  match m with
  | LossModule _ => true
  | _ => false
  end.

(** [model.add_module(name, m)]: assigning to a name already present replaces
    the module at its position, a new name is appended. *)
Fixpoint add_module {P} (model : Sequential P) (name : string) (m : Module P)
  : Sequential P :=
  match model with
  | [] => [(name, m)]
  | (k, m0) :: rest =>
      if String.eqb k name then (k, m) :: rest
      else (k, m0) :: add_module rest name m
  end.

End Modules.

Arguments layer P : clear implicits.
Arguments Tap R : clear implicits.
Arguments Module R P : clear implicits.
Arguments Sequential R P : clear implicits.
Arguments ReLU {P} inplace.
Arguments Normalization {R P} mean std.
Arguments NNLayer {R P} l.
Arguments LossModule {R P} tp.

(** ** The tensor library behind the program *)

(** What the program takes from the library without defining it: the forward
    pass of the pretrained layers, reverse-mode differentiation, and the
    numerical decisions of the L-BFGS optimizer. *)
Class Backend (R : Type) `{Scalar R} : Type := {
  P : Type;
  nn_forward : layer P -> Tensor R -> result (Tensor R);
  (* gradient of the weighted loss with respect to the image *)
  autograd : Sequential R P -> list (Tap R) -> list (Tap R) -> R -> R -> Tensor R -> Tensor R;
  opt_state : Type;
  lbfgs_init : opt_state;
  (* the gradient is already below tolerance *)
  lbfgs_optimal : option (Tensor R) -> bool;
  (* next iterate, or [None] when the directional derivative is below tolerance *)
  lbfgs_direction : opt_state -> Tensor R -> option (Tensor R) -> R -> option (opt_state * Tensor R);
  (* stop after a re-evaluation: evaluation budget, optimality, lack of progress *)
  lbfgs_break : opt_state -> option (Tensor R) -> R -> bool
}.

(** ** Program state *)

(** Lines written to standard output. *)
Inductive output (R : Type) : Type :=
| Line (s : string)
| RunLine (run : nat)
| LossLine (style_loss content_loss : R)
| Blank.
Arguments Line {R} s.
Arguments RunLine {R} run.
Arguments Blank {R}.

Section World.
Context {R : Type} `{SR : Scalar R} `{BE : @Backend R SR}.

(** The mutable state the program shares between its functions, and three
    counters that only observe it: [forwards] counts the evaluations
    [model(x)] begun, [closure_calls] the calls of [closure], [outer_steps]
    the calls of [optimizer.step]. *)
Record world : Type := mkWorld {
  heap : list (option R);         (* the [loss] attribute of each loss object *)
  input_img : Tensor R;           (* input_img.data, updated in place *)
  input_grad : option (Tensor R); (* input_img.grad *)
  ost : opt_state;
  run0 : nat;                     (* run[0] *)
  stdout : list (output R);
  forwards : nat;
  closure_calls : nat;
  outer_steps : nat
}.

Definition M (A : Type) : Type := world -> result A * world.

Definition ret {A} (a : A) : M A := fun w => (Ok a, w).
Definition raise {A} (e : exn) : M A := fun w => (Raise e, w).
Definition bind {A B} (c : M A) (k : A -> M B) : M B :=
  fun w => match c w with
           | (Ok a, w') => k a w'
           | (Raise e, w') => (Raise e, w')
           end.
Definition lift {A} (r : result A) : M A := fun w => (r, w).
Definition get : M world := fun w => (Ok w, w).
Definition modify (f : world -> world) : M unit := fun w => (Ok tt, f w).

Definition set_heap (h : list (option R)) (w : world) : world :=
  mkWorld h (input_img w) (input_grad w) (ost w) (run0 w) (stdout w)
          (forwards w) (closure_calls w) (outer_steps w).
Definition set_input_img (x : Tensor R) (w : world) : world :=
  mkWorld (heap w) x (input_grad w) (ost w) (run0 w) (stdout w)
          (forwards w) (closure_calls w) (outer_steps w).
Definition set_input_grad (g : option (Tensor R)) (w : world) : world :=
  mkWorld (heap w) (input_img w) g (ost w) (run0 w) (stdout w)
          (forwards w) (closure_calls w) (outer_steps w).
Definition set_ost (s : opt_state) (w : world) : world :=
  mkWorld (heap w) (input_img w) (input_grad w) s (run0 w) (stdout w)
          (forwards w) (closure_calls w) (outer_steps w).
Definition set_run0 (n : nat) (w : world) : world :=
  mkWorld (heap w) (input_img w) (input_grad w) (ost w) n (stdout w)
          (forwards w) (closure_calls w) (outer_steps w).
Definition print (o : output R) (w : world) : world :=
  mkWorld (heap w) (input_img w) (input_grad w) (ost w) (run0 w) (stdout w ++ [o])
          (forwards w) (closure_calls w) (outer_steps w).
Definition count_forward (w : world) : world :=
  mkWorld (heap w) (input_img w) (input_grad w) (ost w) (run0 w) (stdout w)
          (S (forwards w)) (closure_calls w) (outer_steps w).
Definition count_closure (w : world) : world :=
  mkWorld (heap w) (input_img w) (input_grad w) (ost w) (run0 w) (stdout w)
          (forwards w) (S (closure_calls w)) (outer_steps w).
Definition count_step (w : world) : world :=
  mkWorld (heap w) (input_img w) (input_grad w) (ost w) (run0 w) (stdout w)
          (forwards w) (closure_calls w) (S (outer_steps w)).

End World.

Declare Scope m_scope.
Delimit Scope m_scope with M.
Notation "x <- c ;; k" := (bind c (fun x => k))
  (at level 61, c at next level, right associativity) : m_scope.
Notation "c ;; k" := (bind c (fun _ => k))
  (at level 61, right associativity) : m_scope.

(** ** Loss taps, model evaluation and model assembly *)

Section Core.
Context {R : Type} `{SR : Scalar R} `{BE : @Backend R SR}.
Local Open Scope m_scope.

Fixpoint update_nth {A} (l : list A) (k : nat) (a : A) : list A :=
  match l, k with
  | [], _ => []
  | _ :: l', 0 => a :: l'
  | x :: l', S k' => x :: update_nth l' k' a
  end.

(** Creating a loss object: a fresh cell with no [loss] attribute yet. *)
Definition new_object (k : tap_kind) (tgt : Tensor R) : M (Tap R) :=
  w <- get ;;
  modify (set_heap (heap w ++ [None])) ;;
  ret (mkTap k tgt (length (heap w))).

(** [self.loss = l]. *)
Definition store_loss (self : Tap R) (l : R) : M unit :=
  modify (fun w => set_heap (update_nth (heap w) (cell self) (Some l)) w).

(** [ContentLoss(target)]: [self.target = target.detach()]. *)
Definition ContentLoss_init (tgt : Tensor R) : M (Tap R) :=
  new_object ContentLoss tgt.

(** [ContentLoss.forward]. *)
Definition ContentLoss_forward (self : Tap R) (input : Tensor R) : M (Tensor R) :=
  l <- lift (mse_loss input (target self)) ;;
  store_loss self l ;;
  ret input.

(** [StyleLoss(target_feature)]: [self.target = gram_matrix(target_feature).detach()]. *)
Definition StyleLoss_init (target_feature : Tensor R) : M (Tap R) :=
  G <- lift (gram_matrix target_feature) ;;
  new_object StyleLoss G.

(** [StyleLoss.forward]. *)
Definition StyleLoss_forward (self : Tap R) (input : Tensor R) : M (Tensor R) :=
  G <- lift (gram_matrix input) ;;
  l <- lift (mse_loss G (target self)) ;;
  store_loss self l ;;
  ret input.

(** [Normalization(mean, std)]. *)
Definition Normalization_init (mean std : Tensor R) : result (Module R P) :=
  try! m := view_m11 mean in
  try! s := view_m11 std in
  Ok (Normalization m s).

Definition layer_forward (l : layer P) (x : Tensor R) : result (Tensor R) :=
  match l with
  | ReLU _ => Ok (relu x)
  | _ => nn_forward l x
  end.

Definition module_forward (m : Module R P) (x : Tensor R) : M (Tensor R) :=
  match m with
  | Normalization mean std => lift (Normalization_forward mean std x)
  | NNLayer l => lift (layer_forward l x)
  | LossModule tp =>
      match kind tp with
      | ContentLoss => ContentLoss_forward tp x
      | StyleLoss => StyleLoss_forward tp x
      end
  end.

(** [nn.Sequential.forward]: the modules in order, each fed the previous output. *)
Fixpoint Sequential_forward (model : Sequential R P) (x : Tensor R) : M (Tensor R) :=
  match model with
  | [] => ret x
  | (_, m) :: rest => y <- module_forward m x ;; Sequential_forward rest y
  end.

(** [model(x)]. *)
Definition call_model (model : Sequential R P) (x : Tensor R) : M (Tensor R) :=
  modify count_forward ;;
  Sequential_forward model x.

Definition string_of_nat (n : nat) : string := NilEmpty.string_of_uint (Nat.to_uint n).

Definition content_layers_default : list string := ["conv_3"%string].
Definition style_layers_default : list string :=
  ["conv_1"; "conv_2"; "conv_3"; "conv_4"; "conv_5"]%string.

(** [name in names]. *)
Definition name_in (name : string) (names : list string) : bool :=
  existsb (String.eqb name) names.

(** The [isinstance] chain of the walk: the updated counter [i], the name,
    and the layer to add (a [ReLU] is replaced by an out-of-place one). *)
Definition name_layer (i : nat) (l : layer P) : result (nat * string * layer P) :=
  match l with
  | Conv2d _ => Ok (S i, ("conv_" ++ string_of_nat (S i))%string, l)
  | ReLU _ => Ok (i, ("relu_" ++ string_of_nat i)%string, ReLU false)
  | MaxPool2d _ => Ok (i, ("pool_" ++ string_of_nat i)%string, l)
  | BatchNorm2d _ => Ok (i, ("bn_" ++ string_of_nat i)%string, l)
  | OtherLayer class_name _ =>
      Raise (RuntimeError ("Unrecognized layer: " ++ class_name))
  end.

(** The local variables of [get_style_model_and_losses] during the walk. *)
Record assembly : Type := mkAssembly {
  model : Sequential R P;
  i : nat;
  content_losses : list (Tap R);
  style_losses : list (Tap R)
}.

(** One iteration of [for layer in cnn.children()]. *)
Definition walk_layer (style_img content_img : Tensor R)
    (content_layers style_layers : list string) (st : assembly) (l : layer P)
  : M assembly :=
  nl <- lift (name_layer (i st) l) ;;
  let '(i1, name, l1) := nl in
  let model1 := add_module (model st) name (NNLayer l1) in
  st2 <- (if name_in name content_layers then
            tgt <- call_model model1 content_img ;;
            content_loss <- ContentLoss_init tgt ;;
            ret (mkAssembly
                   (add_module model1 ("content_loss_" ++ string_of_nat i1)
                               (LossModule content_loss))
                   i1 (content_losses st ++ [content_loss]) (style_losses st))
          else ret (mkAssembly model1 i1 (content_losses st) (style_losses st))) ;;
  if name_in name style_layers then
    target_feature <- call_model (model st2) style_img ;;
    style_loss <- StyleLoss_init target_feature ;;
    ret (mkAssembly
           (add_module (model st2) ("style_loss_" ++ string_of_nat i1)
                       (LossModule style_loss))
           i1 (content_losses st2) (style_losses st2 ++ [style_loss]))
  else ret st2.

Fixpoint walk (style_img content_img : Tensor R)
    (content_layers style_layers : list string) (cnn : list (layer P)) (st : assembly)
  : M assembly :=
  match cnn with
  | [] => ret st
  | l :: rest =>
      st' <- walk_layer style_img content_img content_layers style_layers st l ;;
      walk style_img content_img content_layers style_layers rest st'
  end.

(** [for i in range(len(model) - 1, -1, -1): if isinstance(...): break]:
    the value of [i] when the loop ends; [i] keeps its earlier value when the
    range is empty. *)
Fixpoint scan_back (model : Sequential R P) (range : list nat) (i : nat) : nat :=
  match range with
  | [] => i
  | k :: rest =>
      match nth_error model k with
      | Some (_, m) => if is_loss m then k else scan_back model rest k
      | None => scan_back model rest k
      end
  end.

Definition trim (model : Sequential R P) (i : nat) : Sequential R P :=
  firstn (scan_back model (rev (seq 0 (length model))) i + 1) model.

(** [get_style_model_and_losses]; the result is
    [(model, style_losses, content_losses)]. *)
Definition get_style_model_and_losses (cnn : list (layer P)) (mean std : Tensor R)
    (style_img content_img : Tensor R) (content_layers style_layers : list string)
  : M (Sequential R P * list (Tap R) * list (Tap R)) :=
  normalization <- lift (Normalization_init mean std) ;;
  st <- walk style_img content_img content_layers style_layers cnn
          (mkAssembly [("0"%string, normalization)] 0 [] []) ;;
  ret (trim (model st) (i st), style_losses st, content_losses st).

(** ** The optimiser and the optimisation loop *)

(** A Python number or a zero-dimensional tensor: [style_score] starts as the
    number 0 and becomes a tensor with the first loss added to it. *)
Inductive score : Type :=
| PyNum (v : R)
| PyTensor (v : R).

Definition score_value (s : score) : R :=
  match s with
  | PyNum v => v
  | PyTensor v => v
  end.

Definition score_scale (s : score) (weight : R) : score :=
  match s with
  | PyNum v => PyNum (mul v weight)
  | PyTensor v => PyTensor (mul v weight)
  end.

Definition score_add (a b : score) : score :=
  match a, b with
  | PyNum x, PyNum y => PyNum (add x y)
  | _, _ => PyTensor (add (score_value a) (score_value b))
  end.

(** [tp.loss]. *)
Definition read_loss (tp : Tap R) : M R :=
  w <- get ;;
  match nth_error (heap w) (cell tp) with
  | Some (Some l) => ret l
  | _ => raise (AttributeError "object has no attribute 'loss'")
  end.

(** [for tp in taps: acc += tp.loss]. *)
Fixpoint sum_losses (taps : list (Tap R)) (acc : score) : M score :=
  match taps with
  | [] => ret acc
  | tp :: rest =>
      l <- read_loss tp ;;
      sum_losses rest (PyTensor (add (score_value acc) l))
  end.

(** [s.item()], an attribute of tensors only. *)
Definition item (s : score) : M R :=
  match s with
  | PyTensor v => ret v
  | PyNum _ => raise (AttributeError "object has no attribute 'item'")
  end.

(** [loss.backward()], an attribute of tensors only; the gradient lands in
    [input_img.grad]. *)
Definition backward (loss : score) (g : Tensor R) : M unit :=
  match loss with
  | PyTensor _ => modify (set_input_grad (Some g))
  | PyNum _ => raise (AttributeError "object has no attribute 'backward'")
  end.

(** [closure] of [run_style_transfer]. *)
Definition closure (model : Sequential R P) (style_losses content_losses : list (Tap R))
    (style_weight content_weight : R) : M score :=
  modify count_closure ;;
  modify (fun w => set_input_img (clamp_ (input_img w)) w) ;;
  modify (set_input_grad None) ;;
  w <- get ;;
  _ <- call_model model (input_img w) ;;
  style_score <- sum_losses style_losses (PyNum zero) ;;
  content_score <- sum_losses content_losses (PyNum zero) ;;
  let style_score := score_scale style_score style_weight in
  let content_score := score_scale content_score content_weight in
  let loss := score_add style_score content_score in
  backward loss (autograd model style_losses content_losses
                          style_weight content_weight (input_img w)) ;;
  modify (fun w => set_run0 (run0 w + 1) w) ;;
  w <- get ;;
  (if run0 w mod 50 =? 0 then
     modify (print (RunLine (run0 w))) ;;
     s <- item style_score ;;
     c <- item content_score ;;
     modify (print (LossLine s c)) ;;
     modify (print Blank)
   else ret tt) ;;
  ret (score_add style_score content_score).

(** [max_iter] of [optim.LBFGS], which [get_input_optimizer] leaves at its
    default. *)
Definition max_iter : nat := 20.

(** The iterations of one [optimizer.step] after the first evaluation: each
    moves the image, and each but the last evaluates [closure] again. *)
Fixpoint lbfgs_iterate (left : nat) (cl : M score) (loss : R) : M unit :=
  match left with
  | 0 => ret tt
  | S k =>
      w <- get ;;
      match lbfgs_direction (ost w) (input_img w) (input_grad w) loss with
      | None => ret tt
      | Some (s, x) =>
          modify (set_ost s) ;;
          modify (set_input_img x) ;;
          match k with
          | 0 => ret tt
          | S _ =>
              l <- cl ;;
              w' <- get ;;
              if lbfgs_break (ost w') (input_grad w') (score_value l) then ret tt
              else lbfgs_iterate k cl (score_value l)
          end
      end
  end.

(** [optimizer.step(closure)] for [optim.LBFGS] without line search: the
    closure is evaluated once, and the iterations follow unless the gradient
    is already optimal. *)
Definition optimizer_step (cl : M score) : M unit :=
  modify count_step ;;
  orig_loss <- cl ;;
  w <- get ;;
  if lbfgs_optimal (input_grad w) then ret tt
  else lbfgs_iterate max_iter cl (score_value orig_loss).

(** [while run[0] <= num_steps: optimizer.step(closure)], at most [fuel]
    times round; the result tells whether the loop ended by its own test.
    [num_steps] is any Python int, negative ones included. *)
Fixpoint while_loop (fuel : nat) (num_steps : Z) (cl : M score) : M bool :=
  w <- get ;;
  if (Z.of_nat (run0 w) <=? num_steps)%Z then
    match fuel with
    | 0 => ret false
    | S f => optimizer_step cl ;; while_loop f num_steps cl
    end
  else ret true.

Definition num_steps_default : Z := 100%Z.
Definition style_weight_default : R := of_nat (100 * 100).
Definition content_weight_default : R := div one (of_nat (10 * 100)).

(** [run_style_transfer], with the while loop bounded by [fuel]; [None] means
    the bound was reached before the loop ended.  [input_img0] is the
    argument [input_img], which the state holds from then on. *)
Definition run_style_transfer_fuel (fuel : nat) (cnn : list (layer P))
    (mean std content_img style_img input_img0 : Tensor R)
    (num_steps : Z) (style_weight content_weight : R) : M (option (Tensor R)) :=
  msc <- get_style_model_and_losses cnn mean std style_img content_img
           content_layers_default style_layers_default ;;
  let '(model, style_losses, content_losses) := msc in
  modify (set_input_img input_img0) ;;
  modify (set_input_grad None) ;;
  modify (set_ost lbfgs_init) ;;
  modify (print (Line "Optimizing..")) ;;
  modify (set_run0 0) ;;
  finished <- while_loop fuel num_steps
                (closure model style_losses content_losses style_weight content_weight) ;;
  if finished : bool then
    modify (fun w => set_input_img (clamp_ (input_img w)) w) ;;
    w <- get ;;
    ret (Some (input_img w))
  else ret None.

(** [run_style_transfer]: [num_steps + 1] rounds always suffice, and none is
    made when [num_steps] is negative. *)
Definition run_style_transfer (cnn : list (layer P))
    (mean std content_img style_img input_img0 : Tensor R)
    (num_steps : Z) (style_weight content_weight : R) : M (option (Tensor R)) :=
  run_style_transfer_fuel (Z.to_nat (num_steps + 1)) cnn mean std content_img style_img
                          input_img0 num_steps style_weight content_weight.

End Core.

(** ** The library at a stationary point, for running the model *)

(** Every pretrained layer is the identity: a 1x1 convolution of weight one
    without bias, a pooling over windows of one position.  The gradient is the
    one the library computes where every loss is zero, which is zero: this is
    the library in a run whose working image is both the content image and the
    style image, with values within [0, 1], so that every evaluation finds
    the features at their targets.  L-BFGS tests
    [flat_grad.abs().max() <= tolerance_grad] after its first evaluation of the
    closure, a missing gradient read as zeros; an integer gradient passes the
    test exactly when it is zero, and [optimizer.step] returns.  With a zero
    gradient the directional derivative is zero as well, above
    [-tolerance_change], so no iterate is proposed.  The runs through the
    optimizer below all start at such a point. *)
#[export] Instance Backend_still : @Backend Z Scalar_Z := {
  P := unit;
  nn_forward := fun _ x => Ok x;
  autograd := fun _ _ _ _ _ x => mkTensor (shape x) (map (fun _ => 0%Z) (data x));
  opt_state := unit;
  lbfgs_init := tt;
  lbfgs_optimal := fun g => match g with
                           | Some g => forallb (Z.eqb 0) (data g)
                           | None => true
                           end;
  lbfgs_direction := fun _ _ _ _ => None;
  lbfgs_break := fun _ _ _ => true
}.

(** [tolerance_grad] of [optim.LBFGS], left at its default: the float 1e-7. *)
Definition tolerance_grad : float := 0x1.ad7f29abcaf48p-24%float.

(** The same over floats, for an image of at least one pixel: the gradient
    passes the test when the absolute value of each of its entries is at most
    [tolerance_grad], which a NaN is not. *)
#[export] Instance Backend_still_float : @Backend float Scalar_float := {
  P := unit;
  nn_forward := fun _ x => Ok x;
  autograd := fun _ _ _ _ _ x => mkTensor (shape x) (map (fun _ => 0%float) (data x));
  opt_state := unit;
  lbfgs_init := tt;
  lbfgs_optimal := fun g => match g with
                           | Some g =>
                               forallb (fun v => PrimFloat.leb (PrimFloat.abs v) tolerance_grad)
                                       (data g)
                           | None => true
                           end;
  lbfgs_direction := fun _ _ _ _ => None;
  lbfgs_break := fun _ _ _ => true
}.

Definition world0 {BE : @Backend Z Scalar_Z} : @world Z Scalar_Z BE :=
  @mkWorld Z Scalar_Z BE [] (mkTensor [] []) None lbfgs_init 0 [] 0 0 0.

Definition world0_float : @world float Scalar_float Backend_still_float :=
  @mkWorld float Scalar_float Backend_still_float [] (mkTensor [] []) None tt 0 [] 0 0 0.

(** Inputs for the concrete runs. *)
Definition mean0 : Tensor Z := mkTensor [1] [0%Z].
Definition std1 : Tensor Z := mkTensor [1] [1%Z].
(** One image, two channels, 1 x 3 positions. *)
Definition feature_2ch : Tensor Z := mkTensor [1; 2; 1; 3] [1; 2; 3; 4; 5; 6]%Z.
(** A batch of two single-channel 1 x 1 maps. *)
Definition feature_batch2 : Tensor Z := mkTensor [2; 1; 1; 1] [1; 2]%Z.
(** Single-channel images of resolutions 2 x 2, 1 x 3, 1 x 1 and 1 x 2. *)
Definition image_2x2 : Tensor Z := mkTensor [1; 1; 2; 2] [1; 2; 3; 4]%Z.
Definition image_1x3 : Tensor Z := mkTensor [1; 1; 1; 3] [1; 2; 3]%Z.
Definition image_1x1 : Tensor Z := mkTensor [1; 1; 1; 1] [1%Z].
Definition image_1x2 : Tensor Z := mkTensor [1; 1; 1; 2] [1; 2]%Z.
(** A working image with values outside [0, 1]. *)
Definition image_wild : Tensor Z := mkTensor [1; 1; 1; 2] [5; -2]%Z.
(** A single-channel image of 1 x 2 with values within [0, 1]. *)
Definition image_01 : Tensor Z := mkTensor [1; 1; 1; 2] [1; 0]%Z.
(** A content tap holding the 1 x 3 image as its target. *)
Definition tap_1x3 : Tap Z := mkTap ContentLoss image_1x3 0.
Definition tap_1x2 : Tap Z := mkTap ContentLoss image_1x2 0.
(** A state with two loss cells, the second holding a loss. *)
Definition world_two_cells : @world Z Scalar_Z Backend_still :=
  @mkWorld Z Scalar_Z Backend_still [None; Some 5%Z] (mkTensor [] []) None tt 0 [] 0 0 0.
(** A state whose working image has values outside [0, 1]. *)
Definition world_wild : @world Z Scalar_Z Backend_still :=
  @mkWorld Z Scalar_Z Backend_still [] image_wild None tt 0 [] 0 0 0.

(** Float inputs. *)
Definition mean0_float : Tensor float := mkTensor [1] [0%float].
Definition std1_float : Tensor float := mkTensor [1] [1%float].
(** A single-channel image of 1 x 2 with values within [0, 1]. *)
Definition image_half : Tensor float := mkTensor [1; 1; 1; 2] [0.5; 0.25]%float.
(** A single-channel image of 1 x 2 with a NaN pixel and a pixel above 1. *)
Definition image_nan : Tensor float := mkTensor [1; 1; 1; 2] [nan; 7]%float.
(** One image, two channels, 1 x 3 positions: the products of the two
    channels are 2^60, -2^60 and 1, position by position. *)
Definition feature_cancel : Tensor float :=
  mkTensor [1; 2; 1; 3] [0x1p30; 0x1p30; 1; 0x1p30; -0x1p30; 1]%float.

(** ** Reference definitions the properties are stated with *)

Section Reference.
Context {R : Type} `{SR : Scalar R}.

(** Entry (i, k) of the matrix F: the feature map read as rows of length [hw]. *)
Definition F_entry (hw : nat) (x : Tensor R) (i k : nat) : R :=
  at_ (data x) (i * hw + k).

(** Entry (i, j) of F times its transpose, divided by [N]. *)
Definition gram_entry (hw : nat) (N : R) (x : Tensor R) (i j : nat) : R :=
  div (sum (map (fun k => mul (F_entry hw x i k) (F_entry hw x j k)) (seq 0 hw))) N.

(** The Gram matrix in the words of its description: F is the
    (batch * channels) x (height * width) matrix of the feature map, and the
    result is F times its transpose divided by batch * channels * height * width. *)
Definition gram_spec (b c h w : nat) (x : Tensor R) : Tensor R :=
  mkTensor [b * c; b * c]
           (grid (b * c) (b * c) (gram_entry (h * w) (of_nat (b * c * h * w)) x)).

(** The feature map with its spatial positions reordered by [p], the same way
    in every channel: position [q] of the result holds position [nth q p]. *)
Definition permute_spatial (p : list nat) (x : Tensor R) : Tensor R :=
  match shape x with
  | [b; c; h; w] =>
      mkTensor (shape x)
               (flat_map (fun i => map (fun k => at_ (data x) (i * (h * w) + k)) p)
                         (seq 0 (b * c)))
  | _ => x
  end.

(** Mean squared error of two tensors of one shape. *)
Definition mse_spec (x y : Tensor R) : R :=
  div (sum (map (fun ab => mul (sub (fst ab) (snd ab)) (sub (fst ab) (snd ab)))
                (combine (data x) (data y))))
      (of_nat (length (data x))).

(** A pixel value within [0, 1]. *)
Definition in_unit (v : R) : Prop := leb zero v = true /\ leb v one = true.

(** A value that does not compare with itself: for IEEE floats, a NaN. *)
Definition not_a_number (v : R) : Prop := leb v v = false.

(** Entry (i, j) of F times its transpose divided by [N], the products added
    in the order [ks] lists the positions. *)
Definition gram_entry_over (ks : list nat) (hw : nat) (N : R) (x : Tensor R) (i j : nat) : R :=
  div (sum (map (fun k => mul (F_entry hw x i k) (F_entry hw x j k)) ks)) N.

End Reference.

(** ** Notions the properties of assembly and of the loop are stated with *)

Section AssemblyReference.
Context {R : Type} `{SR : Scalar R} `{BE : @Backend R SR}.

(** A layer of one of the four kinds the walk names. *)
Definition recognized (l : layer P) : bool :=
  match l with
  | OtherLayer _ _ => false
  | _ => true
  end.

(** The names the walk gives to the layers of [cnn], starting with the
    counter at [i], up to the first layer it does not recognise. *)
Fixpoint walk_names (i : nat) (cnn : list (layer P)) : list string :=
  match cnn with
  | [] => []
  | l :: rest =>
      match name_layer i l with
      | Ok (i1, name, _) => name :: walk_names i1 rest
      | Raise _ => []
      end
  end.

(** No name of [names] is in the content-tap set or in the style-tap set. *)
Definition no_tap_matches (content_layers style_layers names : list string) : Prop :=
  forall name, In name names ->
    name_in name content_layers = false /\ name_in name style_layers = false.

Definition has_loss (model : Sequential R P) : bool :=
  existsb (fun km => is_loss (snd km)) model.

Fixpoint starts_with (pre s : string) : bool :=
  match pre with
  | EmptyString => true
  | String a pre' =>
      match s with
      | EmptyString => false
      | String b s' => Ascii.eqb a b && starts_with pre' s'
      end
  end.

(** The names under which the walk adds loss modules. *)
Definition is_tap_name (name : string) : bool :=
  starts_with "content_loss_" name || starts_with "style_loss_" name.

(** Loss modules sit under tap names only. *)
Definition taps_named (model : Sequential R P) : Prop :=
  Forall (fun km => is_loss (snd km) = true -> is_tap_name (fst km) = true) model.

(** What the walk maintains: the normalization module stays first, loss
    modules sit under tap names, and the model holds a loss module exactly
    when a loss has been recorded. *)
Definition assembly_inv (nm : Module R P) (st : assembly) : Prop :=
  hd_error (model st) = Some ("0"%string, nm) /\
  taps_named (model st) /\
  (has_loss (model st) = true <-> content_losses st ++ style_losses st <> []).


Definition raises_only {A} (Q : exn -> Prop) (c : M A) : Prop :=
  forall w e w', c w = (Raise e, w') -> Q e.

(** Two states with the same step counter and the same observation counters
    of the loop. *)
Definition steady (w w' : world) : Prop :=
  run0 w' = run0 w /\ closure_calls w' = closure_calls w /\
  outer_steps w' = outer_steps w.

Definition keeps_counters {A} (c : M A) : Prop :=
  forall w, steady w (snd (c w)).

(** What the loop needs to know of its closure: a call is counted, leaves the
    count of outer steps alone, and advances [run[0]] by one when it returns
    (by at most one when it raises). *)
Definition counts_as_closure {A} (cl : M A) : Prop :=
  forall w,
    outer_steps (snd (cl w)) = outer_steps w /\
    closure_calls (snd (cl w)) = S (closure_calls w) /\
    run0 w <= run0 (snd (cl w)) <= run0 w + 1 /\
    (forall a, fst (cl w) = Ok a -> run0 (snd (cl w)) = run0 w + 1).

End AssemblyReference.

(** ** Notions the further properties are stated with *)

Section FurtherReference.
Context {R : Type} `{SR : Scalar R} `{BE : @Backend R SR}.

(** A layer as the walk adds it: of a recognised kind, and out of place when
    it is an activation. *)
Definition as_added (l : layer P) : bool :=
  match l with
  | ReLU inplace => negb inplace
  | OtherLayer _ _ => false
  | _ => true
  end.

(** A module the walk adds: a layer as added, or a loss module. *)
Definition added_module (m : Module R P) : bool :=
  match m with
  | Normalization _ _ => false
  | NNLayer l => as_added l
  | LossModule _ => true
  end.

(** The loss objects a model holds, in order. *)
Definition model_taps (model : Sequential R P) : list (Tap R) :=
  flat_map (fun km => match snd km with
                      | LossModule tp => [tp]
                      | _ => []
                      end) model.

(** A computation that leaves an observation [f] of the state as it is,
    whether it returns or raises. *)
Definition keeps {A X} (f : world -> X) (c : M A) : Prop :=
  forall w, f (snd (c w)) = f w.

Definition heap_size (w : world) : nat := length (heap w).

(** The [loss] attribute stored at a cell, if any. *)
Definition loss_at (w : world) (c : nat) : option R :=
  match nth_error (heap w) c with
  | Some (Some l) => Some l
  | _ => None
  end.

End FurtherReference.

(** * Properties *)

(** ** Lists laid out in rows *)

Lemma flat_map_seq_S {A} (row : nat -> list A) (n : nat) :
  flat_map row (seq 0 (S n)) = flat_map row (seq 0 n) ++ row n.
Proof.
  rewrite seq_S, flat_map_app. simpl. now rewrite app_nil_r.
Qed.

Lemma length_rows {A} (row : nat -> list A) (L n : nat) :
  (forall i, i < n -> length (row i) = L) ->
  length (flat_map row (seq 0 n)) = n * L.
Proof.
  induction n as [|n IH]; intros HL; [reflexivity|].
  rewrite flat_map_seq_S, length_app, IH, HL by auto. lia.
Qed.

Lemma nth_rows {A} (row : nat -> list A) (L n i q : nat) (d : A) :
  (forall i, i < n -> length (row i) = L) ->
  i < n -> q < L ->
  nth (i * L + q) (flat_map row (seq 0 n)) d = nth q (row i) d.
Proof.
  induction n as [|n IH]; intros HL Hi Hq; [lia|].
  rewrite flat_map_seq_S.
  assert (Hlen : length (flat_map row (seq 0 n)) = n * L)
    by (apply length_rows; auto).
  destruct (Nat.eq_dec i n) as [->|Hne].
  - rewrite app_nth2 by lia. rewrite Hlen. f_equal. lia.
  - rewrite app_nth1 by (rewrite Hlen; nia). apply IH; auto; lia.
Qed.

Lemma rows_ext {A} (row row' : nat -> list A) (n : nat) :
  (forall i, i < n -> row i = row' i) ->
  flat_map row (seq 0 n) = flat_map row' (seq 0 n).
Proof.
  induction n as [|n IH]; intros E; [reflexivity|].
  rewrite !flat_map_seq_S, IH, E by auto. reflexivity.
Qed.

Lemma map_rows {A B} (g : A -> B) (row : nat -> list A) (n : nat) :
  map g (flat_map row (seq 0 n)) = flat_map (fun i => map g (row i)) (seq 0 n).
Proof.
  induction n as [|n IH]; [reflexivity|].
  rewrite !flat_map_seq_S, map_app, IH. reflexivity.
Qed.

Lemma nth_map_seq {A} (f : nat -> A) (p j : nat) (d : A) :
  j < p -> nth j (map f (seq 0 p)) d = f j.
Proof.
  intros Hj.
  rewrite (nth_indep _ d (f 0)) by (rewrite length_map, length_seq; exact Hj).
  rewrite map_nth, seq_nth by exact Hj. reflexivity.
Qed.

Lemma map_seq_ext {A} (f g : nat -> A) (p : nat) :
  (forall k, k < p -> f k = g k) -> map f (seq 0 p) = map g (seq 0 p).
Proof.
  intros E. apply map_ext_in. intros k Hk. apply in_seq in Hk. apply E. lia.
Qed.

Lemma map_nth_seq_id {A} (l : list A) (d : A) :
  map (fun q => nth q l d) (seq 0 (length l)) = l.
Proof.
  induction l as [|a l IH]; [reflexivity|].
  simpl. f_equal. rewrite <- seq_shift, map_map. exact IH.
Qed.


(** ** Gram matrix *)

Section Gram.
Context {R : Type} `{SR : Scalar R}.

Lemma length_grid (n p : nat) (f : nat -> nat -> R) : length (grid n p f) = n * p.
Proof.
  apply length_rows. intros. now rewrite length_map, length_seq.
Qed.

Lemma at_grid (n p : nat) (f : nat -> nat -> R) (i j : nat) :
  i < n -> j < p -> at_ (grid n p f) (i * p + j) = f i j.
Proof.
  intros Hi Hj. unfold at_, grid.
  rewrite (nth_rows _ (L:=p)) by (auto; intros; now rewrite length_map, length_seq).
  now apply nth_map_seq.
Qed.

Lemma grid_ext (n p : nat) (f g : nat -> nat -> R) :
  (forall i j, i < n -> j < p -> f i j = g i j) -> grid n p f = grid n p g.
Proof.
  intros E. apply rows_ext. intros i Hi. apply map_seq_ext. auto.
Qed.

Lemma map_grid (g : R -> R) (n p : nat) (f : nat -> nat -> R) :
  map g (grid n p f) = grid n p (fun i j => g (f i j)).
Proof.
  unfold grid. rewrite map_rows. apply rows_ext. intros. now rewrite map_map.
Qed.

Lemma numel_view (b c h w : nat) :
  numel [b * c; h * w] = numel [b; c; h; w].
Proof. simpl. lia. Qed.

(** The code computes the Gram matrix of the description, for every rank-4
    shape. *)
Lemma gram_matrix_eq (x : Tensor R) (b c h w : nat) :
  shape x = [b; c; h; w] ->
  gram_matrix x = Ok (gram_spec b c h w x).
Proof.
  intros Hs. unfold gram_matrix, view. rewrite Hs, numel_view, Nat.eqb_refl.
  cbn [rbind t mm shape data]. rewrite Nat.eqb_refl. cbn [rbind].
  unfold tdiv, gram_spec. cbn [shape data]. do 2 f_equal.
  rewrite map_grid. apply grid_ext. intros i j Hi Hj.
  unfold gram_entry, F_entry. do 2 f_equal.
  apply map_seq_ext. intros k Hk. now rewrite at_grid.
Qed.



(** C7 (as amended). For every rank-4 feature map of dimensions (batch,
    channels, height, width), [gram_matrix] returns F times its transpose
    divided by batch * channels * height * width, where F is the feature map
    read as a (batch * channels) x (height * width) matrix; the result is a
    square matrix of size (batch * channels) x (batch * channels), which is
    channels x channels when batch = 1. *)
Theorem gram_matrix_shape_and_value (x : Tensor R) (b c h w : nat) :
  shape x = [b; c; h; w] ->
  exists G,
    gram_matrix x = Ok G /\
    G = gram_spec b c h w x /\
    shape G = [b * c; b * c] /\
    length (data G) = (b * c) * (b * c) /\
    (forall i j, i < b * c -> j < b * c ->
       at_ (data G) (i * (b * c) + j)
       = gram_entry (h * w) (of_nat (b * c * h * w)) x i j) /\
    (b = 1 -> shape G = [c; c]).
Proof.
  intros Hs. exists (gram_spec b c h w x).
  split; [now apply gram_matrix_eq|]. split; [reflexivity|].
  split; [reflexivity|]. split; [apply length_grid|]. split.
  - intros i j Hi Hj. cbn [gram_spec data]. now apply at_grid.
  - intros ->. cbn [gram_spec shape]. now rewrite Nat.mul_1_l.
Qed.

Lemma sum_from_perm (l l' : list R) :
  add_commutative -> add_associative ->
  Permutation l l' -> forall a, fold_left add l a = fold_left add l' a.
Proof.
  intros Hc Ha HP. induction HP as [|v l l' _ IH|u v l|l l' l'' _ IH1 _ IH2]; intros a.
  - reflexivity.
  - simpl. apply IH.
  - simpl. f_equal. rewrite !Ha. f_equal. apply Hc.
  - now rewrite IH1.
Qed.

Lemma sum_perm (l l' : list R) :
  add_commutative -> add_associative -> Permutation l l' -> sum l = sum l'.
Proof. intros Hc Ha HP. unfold sum. now apply sum_from_perm. Qed.

Lemma F_entry_permute (p : list nat) (x : Tensor R) (b c h w i q : nat) :
  shape x = [b; c; h; w] -> length p = h * w -> i < b * c -> q < h * w ->
  F_entry (h * w) (permute_spatial p x) i q = F_entry (h * w) x i (nth q p 0).
Proof.
  intros Hs Hp Hi Hq. unfold F_entry, permute_spatial, at_ at 1. rewrite Hs.
  cbn [data].
  rewrite (nth_rows _ (L:=h * w)) by (auto; intros; now rewrite length_map).
  rewrite (nth_indep _ zero (at_ (data x) (i * (h * w) + 0)))
    by (now rewrite length_map, Hp).
  now rewrite (map_nth (fun k => at_ (data x) (i * (h * w) + k))).
Qed.

(** The entry of the Gram matrix of the permuted map adds the products of
    the original map in the order of the permutation.  No law of the scalars
    is used. *)
Lemma gram_entry_permute_over (p : list nat) (x : Tensor R) (b c h w i j : nat) (N : R) :
  shape x = [b; c; h; w] -> length p = h * w ->
  i < b * c -> j < b * c ->
  gram_entry (h * w) N (permute_spatial p x) i j = gram_entry_over p (h * w) N x i j.
Proof.
  intros Hs Hp Hi Hj. unfold gram_entry, gram_entry_over. f_equal. f_equal.
  rewrite (map_seq_ext _
             (fun q => (fun k => mul (F_entry (h * w) x i k) (F_entry (h * w) x j k))
                         (nth q p 0))).
  - rewrite <- (map_map (fun q => nth q p 0)
                        (fun k => mul (F_entry (h * w) x i k) (F_entry (h * w) x j k))).
    rewrite <- Hp at 1. now rewrite map_nth_seq_id.
  - intros q Hq. cbn beta.
    now rewrite !(@F_entry_permute p x b c h w) by assumption.
Qed.

Lemma gram_entry_permute (p : list nat) (x : Tensor R) (b c h w i j : nat) (N : R) :
  add_commutative -> add_associative ->
  shape x = [b; c; h; w] -> Permutation p (seq 0 (h * w)) ->
  i < b * c -> j < b * c ->
  gram_entry (h * w) N (permute_spatial p x) i j = gram_entry (h * w) N x i j.
Proof.
  intros Hc Ha Hs HP Hi Hj.
  assert (Hp : length p = h * w)
    by (rewrite (Permutation_length HP); apply length_seq).
  rewrite (@gram_entry_permute_over p x b c h w i j N) by assumption.
  unfold gram_entry, gram_entry_over. f_equal.
  apply sum_perm; auto. now apply Permutation_map.
Qed.

(** C8 (as amended). For every rank-4 feature map and every permutation of its
    height x width positions applied alike in all channels, [gram_matrix] of
    the permuted map has the shape of [gram_matrix] of the original, and each
    of its entries adds the same products, in the order the permutation lists
    the positions, before the same division.  The two matrices are equal when
    the addition of the scalars is commutative and associative, as exact
    addition is and floating-point addition is not. *)
Theorem gram_matrix_permutation_invariant (x : Tensor R) (b c h w : nat) (p : list nat) :
  shape x = [b; c; h; w] ->
  Permutation p (seq 0 (h * w)) ->
  exists G G',
    gram_matrix x = Ok G /\ gram_matrix (permute_spatial p x) = Ok G' /\
    shape G = [b * c; b * c] /\ shape G' = [b * c; b * c] /\
    (forall i j, i < b * c -> j < b * c ->
       at_ (data G) (i * (b * c) + j)
       = gram_entry_over (seq 0 (h * w)) (h * w) (of_nat (b * c * h * w)) x i j /\
       at_ (data G') (i * (b * c) + j)
       = gram_entry_over p (h * w) (of_nat (b * c * h * w)) x i j) /\
    (add_commutative -> add_associative -> G' = G).
Proof.
  intros Hs HP.
  assert (Hp : length p = h * w)
    by (rewrite (Permutation_length HP); apply length_seq).
  assert (Hs' : shape (permute_spatial p x) = [b; c; h; w])
    by (unfold permute_spatial; now rewrite Hs).
  exists (gram_spec b c h w x), (gram_spec b c h w (permute_spatial p x)).
  split; [now apply gram_matrix_eq|]. split; [now apply gram_matrix_eq|].
  split; [reflexivity|]. split; [reflexivity|]. split.
  - intros i j Hi Hj. cbn [gram_spec data]. rewrite !at_grid by assumption.
    split; [reflexivity|].
    now apply gram_entry_permute_over with (b := b) (c := c).
  - intros Hc Ha. unfold gram_spec. f_equal.
    apply grid_ext. intros i j Hi Hj.
    now apply gram_entry_permute with (b := b) (c := c).
Qed.

End Gram.

(** ** Mean squared error and the loss taps *)

Section Taps.
Context {R : Type} `{SR : Scalar R} `{BE : @Backend R SR}.

Lemma pad_shape_same (s : list nat) :
  pad_shape (Nat.max (length s) (length s)) s = s.
Proof. unfold pad_shape. now rewrite Nat.max_id, Nat.sub_diag. Qed.

Lemma broadcast_aligned_same (s : list nat) : broadcast_aligned s s = Some s.
Proof.
  induction s as [|a s IH]; [reflexivity|].
  simpl. unfold broadcast_dim. now rewrite Nat.eqb_refl, IH.
Qed.

Lemma firstn_plus (n m : nat) (l : list R) :
  firstn (n + m) l = firstn n l ++ firstn m (skipn n l).
Proof.
  revert l. induction n as [|n IH]; intros l; [reflexivity|].
  destruct l as [|a l]; simpl.
  - now rewrite firstn_nil.
  - now rewrite IH.
Qed.

Lemma chunks_firstn (chunk : nat) (d : list R) (a : nat) :
  flat_map (fun i => firstn chunk (skipn (i * chunk) d)) (seq 0 a)
  = firstn (a * chunk) d.
Proof.
  induction a as [|a IH]; [reflexivity|].
  rewrite flat_map_seq_S, IH. simpl.
  rewrite (Nat.add_comm chunk). now rewrite firstn_plus.
Qed.

Lemma length_chunk (chunk : nat) (d : list R) (a i : nat) :
  length d = a * chunk -> i < a ->
  length (firstn chunk (skipn (i * chunk) d)) = chunk.
Proof.
  intros Hd Hi. rewrite length_firstn, length_skipn, Hd. nia.
Qed.

(** Expanding a tensor to its own shape leaves its storage as it is. *)
Lemma expand_data_same (s : list nat) :
  forall d : list R, length d = numel s -> expand_data s s d = d.
Proof.
  induction s as [|a s IH]; intros d Hd; [reflexivity|].
  cbn [expand_data]. cbn [numel fold_right] in Hd. fold (numel s) in Hd.
  rewrite (rows_ext _ (fun i => firstn (numel s) (skipn (i * numel s) d))).
  - rewrite chunks_firstn, <- Hd. apply firstn_all.
  - intros i Hi.
    assert (Hsel : (if a =? 1 then 0 else i) = i).
    { destruct (Nat.eqb_spec a 1); [lia|reflexivity]. }
    rewrite Hsel. apply IH. now apply length_chunk with (a := a).
Qed.

(** On two well-formed tensors of one shape, [mse_loss] is the mean of the
    squared differences. *)
Lemma mse_loss_same_shape (x y : Tensor R) :
  wf x -> wf y -> shape x = shape y ->
  mse_loss x y = Ok (mse_spec x y).
Proof.
  intros Hx Hy Hs. unfold mse_loss, broadcast_op. rewrite <- Hs.
  rewrite pad_shape_same, broadcast_aligned_same. cbn [rbind data shape].
  rewrite !expand_data_same by first [exact Hx | rewrite Hs; exact Hy].
  unfold mse_spec. rewrite map_map. cbn [fst snd]. now rewrite Hx.
Qed.

Lemma wf_gram_spec (b c h w : nat) (x : Tensor R) : wf (gram_spec b c h w x).
Proof.
  unfold wf, gram_spec. cbn [data shape numel fold_right].
  rewrite length_grid. lia.
Qed.

Lemma nth_error_update_nth {A} (l : list A) (k : nat) (a : A) :
  k < length l -> nth_error (update_nth l k a) k = Some a.
Proof.
  revert k. induction l as [|x l IH]; intros k Hk; [simpl in Hk; lia|].
  destruct k as [|k]; [reflexivity|]. simpl. apply IH. simpl in Hk. lia.
Qed.

(** C2 (as amended). [ContentLoss.forward] on an input whose shape is that of
    the stored target, and [StyleLoss.forward] on a rank-4 input whose
    batch * channels is the size of the stored target Gram matrix, return the
    input unchanged and store, as a side effect on the loss object only, the
    mean squared error of the input (of its Gram matrix) against the target.
    The target is the one fixed at construction: the given tensor for
    [ContentLoss], the Gram matrix of the given feature map for [StyleLoss]. *)
Theorem loss_taps_pass_through :
  (forall (self : Tap R) (input : Tensor R) (w : world),
      wf input -> wf (target self) -> shape input = shape (target self) ->
      ContentLoss_forward self input w
      = (Ok input,
         set_heap (update_nth (heap w) (cell self)
                              (Some (mse_spec input (target self)))) w)) /\
  (forall (self : Tap R) (input : Tensor R) (b c h wd : nat) (w : world),
      shape input = [b; c; h; wd] ->
      wf (target self) -> shape (target self) = [b * c; b * c] ->
      StyleLoss_forward self input w
      = (Ok input,
         set_heap (update_nth (heap w) (cell self)
                              (Some (mse_spec (gram_spec b c h wd input) (target self)))) w)) /\
  (forall (self : Tap R) (l : R) (w : world),
      cell self < length (heap w) ->
      read_loss self (set_heap (update_nth (heap w) (cell self) (Some l)) w)
      = (Ok l, set_heap (update_nth (heap w) (cell self) (Some l)) w)) /\
  (forall (tgt : Tensor R) (w : world),
      exists self, fst (ContentLoss_init tgt w) = Ok self /\
                   kind self = ContentLoss /\ target self = tgt) /\
  (forall (target_feature : Tensor R) (b c h wd : nat) (w : world),
      shape target_feature = [b; c; h; wd] ->
      exists self, fst (StyleLoss_init target_feature w) = Ok self /\
                   kind self = StyleLoss /\
                   target self = gram_spec b c h wd target_feature).
Proof.
  repeat split.
  - intros self input w Hi Ht Hs.
    unfold ContentLoss_forward, bind, lift, store_loss, modify, ret.
    now rewrite mse_loss_same_shape.
  - intros self input b c h wd w Hs Ht Hts.
    unfold StyleLoss_forward, bind, lift, store_loss, modify, ret.
    rewrite (gram_matrix_eq _ Hs).
    rewrite mse_loss_same_shape; auto using wf_gram_spec.
  - intros self l w Hc. unfold read_loss, bind, get, ret. cbn [heap set_heap].
    now rewrite nth_error_update_nth.
  - intros tgt w. eexists. unfold ContentLoss_init, new_object, bind, get, modify, ret.
    cbn. repeat split.
  - intros tf b c h wd w Hs. eexists.
    unfold StyleLoss_init, new_object, bind, lift, get, modify, ret.
    rewrite (gram_matrix_eq _ Hs). cbn. repeat split.
Qed.

End Taps.

(** ** Model assembly *)

Section Assembly.
Context {R : Type} `{SR : Scalar R} `{BE : @Backend R SR}.

Lemma Forall_add_module (Q : string * Module R P -> Prop)
    (model : Sequential R P) (name : string) (m : Module R P) :
  Forall Q model -> Q (name, m) -> Forall Q (add_module model name m).
Proof.
  intros HF Hq. induction HF as [|[k m0] rest Hk HF IH]; simpl.
  - constructor; [exact Hq|constructor].
  - destruct (String.eqb_spec k name) as [->|Hne]; constructor; auto.
Qed.

Lemma has_loss_add_loss (model : Sequential R P) (name : string) (tp : Tap R) :
  has_loss (add_module model name (LossModule tp)) = true.
Proof.
  induction model as [|[k m0] rest IH]; [reflexivity|].
  simpl. destruct (String.eqb k name); [reflexivity|].
  change (is_loss m0 || has_loss (add_module rest name (LossModule tp)) = true).
  rewrite IH. apply orb_true_r.
Qed.

Lemma has_loss_add_layer (model : Sequential R P) (name : string) (l : layer P) :
  taps_named model -> is_tap_name name = false ->
  has_loss (add_module model name (NNLayer l)) = has_loss model.
Proof.
  intros HT Hn. induction HT as [|[k m0] rest Hk _ IH]; [reflexivity|].
  simpl. destruct (String.eqb_spec k name) as [->|Hne].
  - cbn [fst snd] in Hk. destruct (is_loss m0) eqn:E; [|reflexivity].
    rewrite Hk in Hn by reflexivity. discriminate.
  - change (is_loss m0 || has_loss (add_module rest name (NNLayer l))
            = is_loss m0 || has_loss rest).
    now rewrite IH.
Qed.

Lemma hd_add_module (model : Sequential R P) (name : string) (m x : Module R P) :
  hd_error model = Some ("0"%string, x) -> String.eqb "0" name = false ->
  hd_error (add_module model name m) = Some ("0"%string, x).
Proof.
  destruct model as [|[k m0] rest]; [discriminate|].
  intros [= -> ->] Hn. cbn [add_module]. now rewrite Hn.
Qed.

(** The names of layers are never tap names, and no name is that of the
    normalization module. *)
Lemma name_layer_name (i i1 : nat) (l l1 : layer P) (name : string) :
  name_layer i l = Ok (i1, name, l1) ->
  is_tap_name name = false /\ String.eqb "0" name = false.
Proof.
  destruct l; intros [= <- <- <-]; split; reflexivity.
Qed.

Lemma content_loss_name (s : string) :
  is_tap_name ("content_loss_" ++ s) = true /\ String.eqb "0" ("content_loss_" ++ s) = false.
Proof. split; reflexivity. Qed.

Lemma style_loss_name (s : string) :
  is_tap_name ("style_loss_" ++ s) = true /\ String.eqb "0" ("style_loss_" ++ s) = false.
Proof. split; reflexivity. Qed.

Lemma firstn_S_nth_error {A} (l : list A) (n : nat) (x : A) :
  nth_error l n = Some x -> firstn (S n) l = firstn n l ++ [x].
Proof.
  revert l. induction n as [|n IH]; intros [|y l] E; simpl in *; try discriminate.
  - now injection E as ->.
  - f_equal. now apply IH.
Qed.

(** What the backward scan returns on the range [n - 1, ..., 0]: the last
    position below [n] that holds a loss module, or, when there is none, the
    last value of the range (or [i] for the empty range). *)
Lemma scan_back_spec (model : Sequential R P) (n i : nat) :
  n <= length model ->
  let k := scan_back model (rev (seq 0 n)) i in
  (has_loss (firstn n model) = false /\ k = match n with 0 => i | S _ => 0 end) \/
  (k < n /\
   (exists name tp, nth_error model k = Some (name, LossModule tp)) /\
   has_loss (skipn (S k) (firstn n model)) = false).
Proof.
  revert i. induction n as [|n IH]; intros i Hn; cbn zeta.
  - left. split; reflexivity.
  - rewrite seq_S, rev_app_distr. cbn [rev app scan_back Nat.add].
    destruct (nth_error model n) as [[name m]|] eqn:En.
    2:{ apply nth_error_None in En. lia. }
    pose proof (firstn_S_nth_error _ _ En) as Hsplit.
    destruct (is_loss m) eqn:Em.
    + right. split; [lia|]. split.
      { destruct m; try discriminate. eauto. }
      rewrite skipn_all2; [reflexivity|]. rewrite length_firstn. lia.
    + destruct (IH n ltac:(lia)) as [[Hno Hk]|(Hk & Hfound & Hafter)].
      * left. split; [|destruct n; [reflexivity|exact Hk]].
        rewrite Hsplit. unfold has_loss in *. rewrite existsb_app, Hno.
        cbn [existsb snd orb]. now rewrite Em.
      * right. split; [lia|]. split; [exact Hfound|].
        set (k := scan_back model (rev (seq 0 n)) n) in *.
        rewrite Hsplit, skipn_app, length_firstn.
        rewrite Nat.min_l by lia. replace (S k - n) with 0 by lia.
        unfold has_loss in *. rewrite existsb_app, Hafter.
        cbn [skipn existsb snd orb]. now rewrite Em.
Qed.

Lemma trim_spec (model : Sequential R P) (i : nat) (x : string * Module R P) :
  hd_error model = Some x ->
  (has_loss model = false -> trim model i = [x]) /\
  (has_loss model = true ->
   exists front name tp rest,
     model = front ++ (name, LossModule tp) :: rest /\
     has_loss rest = false /\
     trim model i = front ++ [(name, LossModule tp)]).
Proof.
  intros Hhd. unfold trim.
  destruct (scan_back_spec model i (le_n (length model)))
    as [[Hno Hk]|(Hk & (name & tp & Hfound) & Hafter)];
    rewrite firstn_all in *.
  - split; [|congruence]. intros _.
    destruct model as [|y rest]; [discriminate|]. injection Hhd as ->.
    cbn [length] in Hk |- *. rewrite Hk. reflexivity.
  - assert (Hhas : has_loss model = true).
    { apply existsb_exists. exists (name, LossModule tp).
      split; [eapply nth_error_In; exact Hfound|reflexivity]. }
    split; [congruence|]. intros _.
    destruct (nth_error_split _ _ Hfound) as (front & rest & Hm & Hlen).
    exists front, name, tp, rest.
    set (k := scan_back model (rev (seq 0 (length model))) i) in *.
    split; [exact Hm|]. rewrite Hm in Hafter |- *.
    rewrite <- Hlen. split.
    + rewrite <- Hlen in Hafter.
      replace (S (length front)) with (length (front ++ [(name, LossModule tp)])) in Hafter
        by (rewrite length_app; simpl; lia).
      change (front ++ (name, LossModule tp) :: rest)
        with (front ++ [(name, LossModule tp)] ++ rest) in Hafter.
      rewrite app_assoc, skipn_app, skipn_all, Nat.sub_diag in Hafter.
      exact Hafter.
    + replace (length front + 1) with (length (front ++ [(name, LossModule tp)]))
        by (rewrite length_app; simpl; lia).
      change (front ++ (name, LossModule tp) :: rest)
        with (front ++ [(name, LossModule tp)] ++ rest).
      rewrite app_assoc, firstn_app, firstn_all, Nat.sub_diag. simpl.
      now rewrite app_nil_r.
Qed.

(** What one iteration of the walk does to the local variables when it does
    not raise. *)
Lemma walk_layer_ok (style_img content_img : Tensor R) (cls sls : list string)
    (st st' : assembly) (l : layer P) (w w' : world) :
  walk_layer style_img content_img cls sls st l w = (Ok st', w') ->
  exists i1 name l1,
    name_layer (i st) l = Ok (i1, name, l1) /\ i st' = i1 /\
    exists model2 cl2,
      ((name_in name cls = false /\
        model2 = add_module (model st) name (NNLayer l1) /\
        cl2 = content_losses st) \/
       (name_in name cls = true /\
        exists tp,
          model2 = add_module (add_module (model st) name (NNLayer l1))
                              ("content_loss_" ++ string_of_nat i1) (LossModule tp) /\
          cl2 = content_losses st ++ [tp])) /\
      content_losses st' = cl2 /\
      ((name_in name sls = false /\ model st' = model2 /\
        style_losses st' = style_losses st) \/
       (name_in name sls = true /\
        exists tp,
          model st' = add_module model2 ("style_loss_" ++ string_of_nat i1)
                                 (LossModule tp) /\
          style_losses st' = style_losses st ++ [tp])).
Proof.
  unfold walk_layer, bind, lift.
  destruct (name_layer (i st) l) as [[[i1 name] l1]|e]; [|discriminate].
  intros H. exists i1, name, l1. split; [reflexivity|].
  destruct (name_in name cls) eqn:Ec.
  - destruct (call_model _ content_img w) as [[tgt|e] w1]; [|discriminate].
    unfold ContentLoss_init, new_object, bind, get, modify, ret in H.
    cbn [model content_losses style_losses] in H.
    destruct (name_in name sls) eqn:Es.
    + destruct (call_model _ style_img _) as [[tf|e] w2]; [|discriminate].
      unfold StyleLoss_init, new_object, bind, lift, get, modify, ret in H.
      destruct (gram_matrix tf) as [G|e]; [|discriminate].
      injection H as <- <-. cbn. split; [reflexivity|].
      eexists _, _. split; [right; split; [reflexivity|eauto]|].
      split; [reflexivity|]. right. split; [reflexivity|]. eauto.
    + injection H as <- <-. cbn. split; [reflexivity|].
      eexists _, _. split; [right; split; [reflexivity|eauto]|].
      split; [reflexivity|]. left. auto.
  - unfold ret in H. cbn [model content_losses style_losses] in H.
    destruct (name_in name sls) eqn:Es.
    + destruct (call_model _ style_img _) as [[tf|e] w2]; [|discriminate].
      unfold StyleLoss_init, new_object, bind, lift, get, modify, ret in H.
      destruct (gram_matrix tf) as [G|e]; [|discriminate].
      injection H as <- <-. cbn. split; [reflexivity|].
      eexists _, _. split; [left; auto|].
      split; [reflexivity|]. right. split; [reflexivity|]. eauto.
    + injection H as <- <-. cbn. split; [reflexivity|].
      eexists _, _. split; [left; auto|].
      split; [reflexivity|]. left. auto.
Qed.

Lemma add_layer_inv (model : Sequential R P) (name : string) (l : layer P)
    (nm : Module R P) :
  is_tap_name name = false -> String.eqb "0" name = false ->
  hd_error model = Some ("0"%string, nm) -> taps_named model ->
  hd_error (add_module model name (NNLayer l)) = Some ("0"%string, nm) /\
  taps_named (add_module model name (NNLayer l)) /\
  has_loss (add_module model name (NNLayer l)) = has_loss model.
Proof.
  intros Ht H0 Hhd HT. split; [now apply hd_add_module|]. split.
  - apply Forall_add_module; [exact HT|]. cbn. discriminate.
  - now apply has_loss_add_layer.
Qed.

Lemma add_loss_inv (model : Sequential R P) (name : string) (tp : Tap R)
    (nm : Module R P) :
  is_tap_name name = true -> String.eqb "0" name = false ->
  hd_error model = Some ("0"%string, nm) -> taps_named model ->
  hd_error (add_module model name (LossModule tp)) = Some ("0"%string, nm) /\
  taps_named (add_module model name (LossModule tp)) /\
  has_loss (add_module model name (LossModule tp)) = true.
Proof.
  intros Ht H0 Hhd HT. split; [now apply hd_add_module|]. split.
  - apply Forall_add_module; [exact HT|]. cbn. intros _. exact Ht.
  - apply has_loss_add_loss.
Qed.

Lemma walk_layer_inv (style_img content_img : Tensor R) (cls sls : list string)
    (nm : Module R P) (st st' : assembly) (l : layer P) (w w' : world) :
  assembly_inv nm st ->
  walk_layer style_img content_img cls sls st l w = (Ok st', w') ->
  assembly_inv nm st'.
Proof.
  intros (Hhd & HT & Hiff) H.
  destruct (walk_layer_ok _ _ _ _ _ _ _ H)
    as (i1 & name & l1 & Hn & _ & model2 & cl2 & Hc & Hcl & Hs).
  destruct (name_layer_name _ _ Hn) as [Htn H0n].
  destruct (@add_layer_inv _ name l1 nm Htn H0n Hhd HT) as (Hhd1 & HT1 & Hl1).
  destruct (content_loss_name (string_of_nat i1)) as [Hcn Hc0].
  destruct (style_loss_name (string_of_nat i1)) as [Hsn Hs0].
  unfold assembly_inv.
  destruct Hc as [(_ & -> & ->)|(_ & tpc & -> & ->)];
    destruct Hs as [(_ & -> & ->)|(_ & tps & -> & ->)]; rewrite Hcl.
  - rewrite Hl1. auto.
  - destruct (@add_loss_inv _ _ tps nm Hsn Hs0 Hhd1 HT1) as (? & ? & ->).
    repeat split; auto. intros _.
    rewrite app_assoc. intros E. apply app_eq_nil in E. destruct E. discriminate.
  - destruct (@add_loss_inv _ _ tpc nm Hcn Hc0 Hhd1 HT1) as (? & ? & ->).
    repeat split; auto. intros _ E.
    apply app_eq_nil in E. destruct E as [E _].
    apply app_eq_nil in E. destruct E. discriminate.
  - destruct (@add_loss_inv _ _ tpc nm Hcn Hc0 Hhd1 HT1) as (Hhd2 & HT2 & _).
    destruct (@add_loss_inv _ _ tps nm Hsn Hs0 Hhd2 HT2) as (? & ? & ->).
    repeat split; auto. intros _.
    rewrite app_assoc. intros E. apply app_eq_nil in E. destruct E. discriminate.
Qed.

Lemma walk_inv (style_img content_img : Tensor R) (cls sls : list string)
    (nm : Module R P) (cnn : list (layer P)) :
  forall (st st' : assembly) (w w' : world),
    assembly_inv nm st ->
    walk style_img content_img cls sls cnn st w = (Ok st', w') ->
    assembly_inv nm st'.
Proof.
  induction cnn as [|l rest IH]; intros st st' w w' Hinv H.
  - injection H as <- _. exact Hinv.
  - cbn [walk] in H. unfold bind in H.
    destruct (walk_layer style_img content_img cls sls st l w) as [[st1|e] w1] eqn:E;
      [|discriminate].
    eapply IH; [|exact H]. eapply walk_layer_inv; eauto.
Qed.

(** The walk over a concatenation is the walk over its parts in turn. *)
Lemma walk_app (style_img content_img : Tensor R) (cls sls : list string)
    (pre post : list (layer P)) :
  forall (st : assembly) (w : world),
    walk style_img content_img cls sls (pre ++ post) st w
    = match walk style_img content_img cls sls pre st w with
      | (Ok st', w') => walk style_img content_img cls sls post st' w'
      | (Raise e, w') => (Raise e, w')
      end.
Proof.
  induction pre as [|l pre IH]; intros st w; [reflexivity|].
  cbn [app walk]. unfold bind.
  destruct (walk_layer style_img content_img cls sls st l w) as [[st1|e] w1];
    [apply IH|reflexivity].
Qed.

(** The walk stops at a layer of no recognised kind. *)
Lemma walk_unrecognized (style_img content_img : Tensor R) (cls sls : list string)
    (c : string) (p : P) (post : list (layer P)) (st : assembly) (w : world) :
  walk style_img content_img cls sls (OtherLayer c p :: post) st w
  = (Raise (RuntimeError ("Unrecognized layer: " ++ c)), w).
Proof. reflexivity. Qed.

(** When no name matches a tap set, the walk over recognised layers only adds
    the layers: no evaluation, no loss, the state untouched. *)
Lemma walk_no_match (style_img content_img : Tensor R) (cls sls : list string)
    (cnn : list (layer P)) :
  forall (st : assembly) (w : world),
    forallb recognized cnn = true ->
    no_tap_matches cls sls (walk_names (i st) cnn) ->
    exists st',
      walk style_img content_img cls sls cnn st w = (Ok st', w) /\
      content_losses st' = content_losses st /\
      style_losses st' = style_losses st.
Proof.
  induction cnn as [|l rest IH]; intros st w Hrec Hno.
  - exists st. repeat split.
  - cbn [forallb] in Hrec. apply andb_prop in Hrec. destruct Hrec as [Hl Hrest].
    cbn [walk walk_names] in *. unfold bind, walk_layer, lift.
    destruct (name_layer (i st) l) as [[[i1 name] l1]|e] eqn:En.
    2:{ destruct l; discriminate. }
    destruct (Hno name (or_introl eq_refl)) as [Hc Hs].
    unfold bind. rewrite Hc. unfold ret. cbn [model]. rewrite Hs.
    destruct (IH (mkAssembly (add_module (model st) name (NNLayer l1)) i1
                             (content_losses st) (style_losses st)) w Hrest)
      as (st' & Hw & Hcl & Hsl).
    { intros n Hn. apply Hno. right. exact Hn. }
    exists st'. split; [exact Hw|]. split; assumption.
Qed.

Lemma view_m11_ok (m : Tensor R) :
  view_m11 m = Ok (mkTensor [numel (shape m); 1; 1] (data m)).
Proof.
  unfold view_m11, view.
  assert (E : numel [numel (shape m); 1; 1] = numel (shape m)) by (cbn; lia).
  now rewrite E, Nat.eqb_refl.
Qed.

(** [Normalization(mean, std)] never raises. *)
Lemma Normalization_init_total (mean std : Tensor R) :
  Normalization_init mean std
  = Ok (Normalization (mkTensor [numel (shape mean); 1; 1] (data mean))
                      (mkTensor [numel (shape std); 1; 1] (data std))).
Proof. unfold Normalization_init. now rewrite !view_m11_ok. Qed.

Lemma Normalization_init_ok (mean std : Tensor R) (nm : Module R P) :
  Normalization_init mean std = Ok nm -> is_loss nm = false.
Proof.
  unfold Normalization_init.
  destruct (view_m11 mean); [|discriminate].
  destruct (view_m11 std); [|discriminate].
  cbn [rbind]. now intros [= <-].
Qed.

Lemma assembly_inv_init (nm : Module R P) :
  is_loss nm = false -> assembly_inv nm (mkAssembly [("0"%string, nm)] 0 [] []).
Proof.
  intros Hnm. split; [reflexivity|]. split.
  - constructor; [|constructor]. cbn. rewrite Hnm. discriminate.
  - cbn. rewrite Hnm. split; [discriminate|congruence].
Qed.

(** The shape of a successful assembly: the normalization module was built,
    the walk ran to its end, and the model was trimmed. *)
Lemma assembly_ok (cnn : list (layer P)) (mean std style_img content_img : Tensor R)
    (cls sls : list string) (w w' : world)
    (m : Sequential R P) (sl cl : list (Tap R)) :
  get_style_model_and_losses cnn mean std style_img content_img cls sls w
  = (Ok (m, sl, cl), w') ->
  exists nm st,
    Normalization_init mean std = Ok nm /\
    walk style_img content_img cls sls cnn (mkAssembly [("0"%string, nm)] 0 [] []) w
    = (Ok st, w') /\
    m = trim (model st) (i st) /\ sl = style_losses st /\ cl = content_losses st.
Proof.
  unfold get_style_model_and_losses, bind, lift, ret.
  destruct (Normalization_init mean std) as [nm|e]; [|discriminate].
  destruct (walk _ _ _ _ _ _ w) as [[st|e] w1] eqn:Ew; [|discriminate].
  intros [= <- <- <- <-]. exists nm, st. repeat split. exact Ew.
Qed.

(** C3 (as amended). For every model assembly that returns: when at least one
    loss tap was recorded, the returned model is the assembled sequence cut
    immediately after its last loss module, so that its final module is a
    ContentLoss or a StyleLoss and no module that followed it remains (the
    modules cut off hold no loss module); when no tap was recorded, the
    returned model is the normalization module alone. *)
Theorem assembled_model_ends_with_last_tap
    (cnn : list (layer P)) (mean std style_img content_img : Tensor R)
    (cls sls : list string) (w w' : world)
    (m : Sequential R P) (sl cl : list (Tap R)) :
  get_style_model_and_losses cnn mean std style_img content_img cls sls w
  = (Ok (m, sl, cl), w') ->
  exists nm st,
    Normalization_init mean std = Ok nm /\
    walk style_img content_img cls sls cnn (mkAssembly [("0"%string, nm)] 0 [] []) w
    = (Ok st, w') /\
    sl = style_losses st /\ cl = content_losses st /\
    ((cl ++ sl <> [] /\
      exists front name tp rest,
        model st = front ++ (name, LossModule tp) :: rest /\
        has_loss rest = false /\
        m = front ++ [(name, LossModule tp)]) \/
     (cl ++ sl = [] /\ m = [("0"%string, nm)])).
Proof.
  intros H. destruct (assembly_ok _ _ _ _ _ _ _ _ H) as (nm & st & Hn & Hw & -> & -> & ->).
  exists nm, st. do 4 (split; [reflexivity || assumption|]).
  assert (Hinv : assembly_inv nm st).
  { eapply walk_inv; [|exact Hw].
    apply assembly_inv_init. eapply Normalization_init_ok. exact Hn. }
  destruct Hinv as (Hhd & _ & Hiff).
  destruct (@trim_spec (model st) (i st) _ Hhd) as [Hnone Hsome].
  destruct (has_loss (model st)) eqn:Eh.
  - left. split; [now apply Hiff|]. now apply Hsome.
  - right. split; [|now apply Hnone].
    destruct (content_losses st ++ style_losses st); [reflexivity|].
    assert (Habs : false = true) by (apply Hiff; discriminate).
    discriminate.
Qed.

(** C10 (as amended). If every layer of the feature extractor is of a
    recognised kind, and neither the content-tap set nor the style-tap set
    matches a name produced during the walk, then
    [get_style_model_and_losses] raises no error, evaluates nothing, and
    returns the normalization module alone together with empty lists of style
    and content losses.  The normalization module holds the mean and the
    deviation viewed as (n, 1, 1), whatever their number n of values. *)
Theorem assembly_without_taps
    (cnn : list (layer P)) (mean std style_img content_img : Tensor R)
    (cls sls : list string) (w : world) :
  forallb recognized cnn = true ->
  no_tap_matches cls sls (walk_names 0 cnn) ->
  get_style_model_and_losses cnn mean std style_img content_img cls sls w
  = (Ok ([("0"%string,
           Normalization (mkTensor [numel (shape mean); 1; 1] (data mean))
                         (mkTensor [numel (shape std); 1; 1] (data std)))],
         [], []), w).
Proof.
  intros Hrec Hno.
  pose proof (Normalization_init_total mean std) as Hn.
  set (nm := Normalization (mkTensor [numel (shape mean); 1; 1] (data mean))
                           (mkTensor [numel (shape std); 1; 1] (data std))) in *.
  destruct (@walk_no_match style_img content_img cls sls cnn
              (mkAssembly [("0"%string, nm)] 0 [] []) w Hrec Hno)
    as (st & Hw & Hcl & Hsl).
  cbn [content_losses style_losses] in Hcl, Hsl.
  assert (Hinv : assembly_inv nm st).
  { eapply walk_inv; [|exact Hw].
    apply assembly_inv_init. eapply Normalization_init_ok. exact Hn. }
  destruct Hinv as (Hhd & _ & Hiff).
  unfold get_style_model_and_losses, bind, lift, ret. rewrite Hn, Hw, Hcl, Hsl.
  destruct (@trim_spec (model st) (i st) _ Hhd) as [Hnone _].
  rewrite Hnone; [reflexivity|].
  destruct (has_loss (model st)); [|reflexivity].
  rewrite Hcl, Hsl in Hiff. exfalso. now apply (proj1 Hiff).
Qed.

End Assembly.

(** ** What model evaluation and assembly leave alone, and what they raise *)

Section Frames.
Context {R : Type} `{SR : Scalar R} `{BE : @Backend R SR}.
Local Open Scope m_scope.

Lemma steady_refl (w : world) : steady w w.
Proof. repeat split. Qed.

Lemma steady_trans (w1 w2 w3 : world) : steady w1 w2 -> steady w2 w3 -> steady w1 w3.
Proof. unfold steady. intros (? & ? & ?) (? & ? & ?). repeat split; congruence. Qed.

Lemma keeps_ret {A} (a : A) : keeps_counters (ret a).
Proof. intros w. apply steady_refl. Qed.

Lemma keeps_raise {A} (e : exn) : keeps_counters (@raise _ _ _ A e).
Proof. intros w. apply steady_refl. Qed.

Lemma keeps_lift {A} (r : result A) : keeps_counters (lift r).
Proof. intros w. apply steady_refl. Qed.

Lemma keeps_get : keeps_counters get.
Proof. intros w. apply steady_refl. Qed.

Lemma keeps_modify (f : world -> world) :
  (forall w, steady w (f w)) -> keeps_counters (modify f).
Proof. intros Hf w. apply Hf. Qed.

Lemma keeps_bind {A B} (c : M A) (k : A -> M B) :
  keeps_counters c -> (forall a, keeps_counters (k a)) -> keeps_counters (bind c k).
Proof.
  intros Hc Hk w. unfold bind. specialize (Hc w).
  destruct (c w) as [[a|e] w1]; cbn [snd] in *; [|exact Hc].
  eapply steady_trans; [exact Hc|apply Hk].
Qed.

Lemma raises_bind {A B} (Q : exn -> Prop) (c : M A) (k : A -> M B) :
  raises_only Q c -> (forall a, raises_only Q (k a)) -> raises_only Q (bind c k).
Proof.
  intros Hc Hk w e w'. unfold bind.
  destruct (c w) as [[a|e1] w1] eqn:E.
  - apply Hk.
  - intros [= <- <-]. eapply Hc. exact E.
Qed.

Lemma raises_ret {A} (Q : exn -> Prop) (a : A) : raises_only Q (ret a).
Proof. intros w e w'. discriminate. Qed.

Lemma raises_get (Q : exn -> Prop) : raises_only Q get.
Proof. intros w e w'. discriminate. Qed.

Lemma raises_modify (Q : exn -> Prop) (f : world -> world) : raises_only Q (modify f).
Proof. intros w e w'. discriminate. Qed.


Create HintDb frames.
#[local] Hint Resolve keeps_ret keeps_raise keeps_lift keeps_get keeps_bind
  steady_refl raises_ret raises_get raises_modify raises_bind : frames.

Ltac frames :=
  repeat first
    [ apply keeps_bind; [|intros ?]
    | apply raises_bind; [|intros ?]
    | apply keeps_modify; intros ?; repeat split
    | solve [auto with frames] ].

(** *** The counters *)

Lemma keeps_store_loss (self : Tap R) (l : R) : keeps_counters (store_loss self l).
Proof. unfold store_loss. frames. Qed.

Lemma keeps_new_object (k : tap_kind) (tgt : Tensor R) : keeps_counters (new_object k tgt).
Proof. unfold new_object. frames. Qed.

Lemma keeps_module_forward (m : Module R P) (x : Tensor R) :
  keeps_counters (module_forward m x).
Proof.
  destruct m as [mean std|l|tp]; cbn [module_forward]; [frames|frames|].
  destruct (kind tp); unfold ContentLoss_forward, StyleLoss_forward;
    frames; apply keeps_store_loss.
Qed.

Lemma keeps_Sequential_forward (model : Sequential R P) :
  forall x, keeps_counters (Sequential_forward model x).
Proof.
  induction model as [|[name m] rest IH]; intros x; cbn [Sequential_forward].
  - frames.
  - apply keeps_bind; [apply keeps_module_forward|intros y; apply IH].
Qed.

Lemma keeps_call_model (model : Sequential R P) (x : Tensor R) :
  keeps_counters (call_model model x).
Proof.
  unfold call_model. apply keeps_bind; [|intros _; apply keeps_Sequential_forward].
  apply keeps_modify. intros w. repeat split.
Qed.

Lemma keeps_walk_layer (style_img content_img : Tensor R) (cls sls : list string)
    (st : assembly) (l : layer P) :
  keeps_counters (walk_layer style_img content_img cls sls st l).
Proof.
  unfold walk_layer. apply keeps_bind; [frames|]. intros [[i1 name] l1].
  apply keeps_bind.
  - destruct (name_in name cls); [|frames].
    apply keeps_bind; [apply keeps_call_model|intros tgt].
    apply keeps_bind; [apply keeps_new_object|intros tp; frames].
  - intros st2. destruct (name_in name sls); [|frames].
    apply keeps_bind; [apply keeps_call_model|intros tf].
    apply keeps_bind; [|intros tp; frames].
    unfold StyleLoss_init. apply keeps_bind; [frames|intros G; apply keeps_new_object].
Qed.

Lemma keeps_walk (style_img content_img : Tensor R) (cls sls : list string)
    (cnn : list (layer P)) :
  forall st, keeps_counters (walk style_img content_img cls sls cnn st).
Proof.
  induction cnn as [|l rest IH]; intros st; cbn [walk]; [frames|].
  apply keeps_bind; [apply keeps_walk_layer|intros st'; apply IH].
Qed.

Lemma keeps_assembly (cnn : list (layer P)) (mean std style_img content_img : Tensor R)
    (cls sls : list string) :
  keeps_counters (get_style_model_and_losses cnn mean std style_img content_img cls sls).
Proof.
  unfold get_style_model_and_losses.
  apply keeps_bind; [frames|intros nm].
  apply keeps_bind; [apply keeps_walk|intros st; frames].
Qed.

Lemma keeps_sum_losses (taps : list (Tap R)) :
  forall acc, keeps_counters (sum_losses taps acc).
Proof.
  induction taps as [|tp rest IH]; intros acc; cbn [sum_losses]; [frames|].
  apply keeps_bind; [|intros l; apply IH].
  unfold read_loss. apply keeps_bind; [frames|intros w].
  destruct (nth_error (heap w) (cell tp)) as [[l|]|]; frames.
Qed.

(** *** The errors *)













End Frames.

(** ** The optimisation loop *)

Section Loop.
Context {R : Type} `{SR : Scalar R} `{BE : @Backend R SR}.
Local Open Scope m_scope.

Lemma keeps_item (s : score) : keeps_counters (item s).
Proof. destruct s; intros w; apply steady_refl. Qed.

Lemma keeps_backward (loss : score) (g : Tensor R) : keeps_counters (backward loss g).
Proof. destruct loss; intros w; repeat split. Qed.

(** The part of [closure] after the counter is advanced: the report. *)
Lemma keeps_report (style_score content_score : score) (n : nat) :
  keeps_counters
    (if n mod 50 =? 0 then
       modify (print (RunLine n)) ;;
       s <- item style_score ;;
       c <- item content_score ;;
       modify (print (LossLine s c)) ;;
       modify (print Blank)
     else ret tt).
Proof.
  destruct (n mod 50 =? 0); [|apply keeps_ret].
  apply keeps_bind; [apply keeps_modify; intros w; repeat split|intros _].
  apply keeps_bind; [apply keeps_item|intros s].
  apply keeps_bind; [apply keeps_item|intros c].
  apply keeps_bind; [apply keeps_modify; intros w; repeat split|intros _].
  apply keeps_modify; intros w; repeat split.
Qed.

Ltac counters :=
  cbn [fst snd run0 closure_calls outer_steps set_run0 print set_input_grad
       set_input_img set_heap set_ost count_closure count_forward count_step] in *.

Ltac next_call K :=
  match goal with
  | |- context [match ?c ?w with _ => _ end] =>
      let E := fresh "E" in
      let H := fresh "K" in
      pose proof (K w) as H;
      destruct (c w) as [[?|?] ?] eqn:E;
      unfold steady in H; counters
  end.

Ltac counted :=
  counters; repeat (first [split | intro]); subst;
  try lia; try discriminate; try congruence.

(** The closure of [run_style_transfer] advances [run[0]] once per call. *)
Lemma closure_counts (model : Sequential R P) (sl cl : list (Tap R)) (sw cw : R) :
  counts_as_closure (closure model sl cl sw cw).
Proof.
  intros w. unfold closure.
  cbv beta iota delta [bind modify get ret].
  next_call (keeps_call_model model (input_img
     (set_input_grad None (set_input_img (clamp_ (input_img (count_closure w)))
                                         (count_closure w))))); [|counted].
  next_call (keeps_sum_losses sl (PyNum zero)); [|counted].
  next_call (keeps_sum_losses cl (PyNum zero)); [|counted].
  match goal with
  | |- context [backward ?l ?g] => next_call (keeps_backward l g); [|counted]
  end.
  match goal with
  | |- context [if ?c then _ else _] => destruct c
  end; cbv beta iota; [|counted].
  match goal with
  | |- context [item ?s] => next_call (keeps_item s); [|counted]
  end.
  match goal with
  | |- context [item ?s] => next_call (keeps_item s); [|counted]
  end.
  counted.
Qed.

Section AnyClosure.
Variable cl : M (@score R).
Hypothesis Hcl : counts_as_closure cl.

(** The iterations of one [optimizer.step] call the closure at most
    [left - 1] times. *)
Lemma lbfgs_iterate_counts (left : nat) :
  forall (loss : R) (w : world),
  exists n,
    n <= pred left /\
    outer_steps (snd (lbfgs_iterate left cl loss w)) = outer_steps w /\
    closure_calls (snd (lbfgs_iterate left cl loss w)) = closure_calls w + n /\
    run0 w <= run0 (snd (lbfgs_iterate left cl loss w)) <= run0 w + n /\
    (forall a, fst (lbfgs_iterate left cl loss w) = Ok a ->
               run0 (snd (lbfgs_iterate left cl loss w)) = run0 w + n).
Proof.
  induction left as [|k IH]; intros loss w.
  - exists 0. cbn [lbfgs_iterate]. unfold ret. counted.
  - cbn [lbfgs_iterate]. cbv beta iota delta [bind get modify ret].
    destruct (lbfgs_direction (ost w) (input_img w) (input_grad w) loss)
      as [[s x]|]; [|exists 0; counted].
    destruct k as [|k]; [exists 0; counted|].
    pose proof (Hcl (set_input_img x (set_ost s w))) as (H1 & H2 & H3 & H4).
    destruct (cl (set_input_img x (set_ost s w))) as [[l|e] w2]; counters.
    2:{ exists 1. counted. }
    specialize (H4 l eq_refl).
    destruct (lbfgs_break (ost w2) (input_grad w2) (score_value l)).
    { exists 1. counted. }
    destruct (IH (score_value l) w2) as (n & Hn & I1 & I2 & I3 & I4).
    exists (S n). cbn [pred] in Hn.
    repeat split; try lia.
    intros a Ha. specialize (I4 a Ha). lia.
Qed.

(** One [optimizer.step] is one outer step and between 1 and [max_iter] calls
    of the closure. *)
Lemma optimizer_step_counts (w : world) :
  exists n,
    1 <= n <= max_iter /\
    outer_steps (snd (optimizer_step cl w)) = S (outer_steps w) /\
    closure_calls (snd (optimizer_step cl w)) = closure_calls w + n /\
    run0 w <= run0 (snd (optimizer_step cl w)) <= run0 w + n /\
    (forall a, fst (optimizer_step cl w) = Ok a ->
               run0 (snd (optimizer_step cl w)) = run0 w + n).
Proof.
  unfold optimizer_step. cbv beta iota delta [bind get modify ret].
  pose proof (Hcl (count_step w)) as (H1 & H2 & H3 & H4).
  destruct (cl (count_step w)) as [[l|e] w1]; counters.
  2:{ exists 1. unfold max_iter. counted. }
  specialize (H4 l eq_refl).
  destruct (lbfgs_optimal (input_grad w1)).
  { exists 1. unfold max_iter. counted. }
  destruct (lbfgs_iterate_counts max_iter (score_value l) w1)
    as (n & Hn & I1 & I2 & I3 & I4).
  exists (S n). unfold max_iter in *. cbn [pred] in Hn.
  repeat split; try lia.
  intros a Ha. specialize (I4 a Ha). lia.
Qed.

(** The while loop: [ds] outer steps and [dc] closure calls. *)
Lemma while_loop_counts (num_steps : Z) (fuel : nat) :
  forall w : world,
  exists ds dc,
    outer_steps (snd (while_loop fuel num_steps cl w)) = outer_steps w + ds /\
    closure_calls (snd (while_loop fuel num_steps cl w)) = closure_calls w + dc /\
    ds <= fuel /\ ds <= dc /\ dc <= max_iter * ds /\
    run0 w <= run0 (snd (while_loop fuel num_steps cl w)) <= run0 w + dc /\
    ((num_steps < Z.of_nat (run0 w))%Z -> ds = 0) /\
    (forall b, fst (while_loop fuel num_steps cl w) = Ok b ->
       run0 (snd (while_loop fuel num_steps cl w)) = run0 w + dc /\
       (b = true ->
          (num_steps < Z.of_nat (run0 (snd (while_loop fuel num_steps cl w))))%Z /\
          (ds = 0 \/
           (Z.of_nat (run0 (snd (while_loop fuel num_steps cl w)))
            <= num_steps + Z.of_nat max_iter)%Z)) /\
       (b = false ->
          ds = fuel /\
          (Z.of_nat (run0 (snd (while_loop fuel num_steps cl w))) <= num_steps)%Z)).
Proof.
  induction fuel as [|f IH]; intros w.
  - cbn [while_loop]. cbv beta iota delta [bind get ret].
    destruct (Z.leb_spec (Z.of_nat (run0 w)) num_steps); exists 0, 0; counted.
  - cbn [while_loop]. cbv beta iota delta [bind get ret].
    destruct (Z.leb_spec (Z.of_nat (run0 w)) num_steps) as [Hle|Hgt].
    2:{ exists 0, 0. counted. }
    destruct (optimizer_step_counts w) as (n & Hn & S1 & S2 & S3 & S4).
    destruct (optimizer_step cl w) as [[u|e] w1]; counters.
    2:{ exists 1, n. unfold max_iter in *. counted. }
    specialize (S4 u eq_refl).
    destruct (IH w1) as (ds & dc & I1 & I2 & I3 & I4 & I5 & I6 & _ & I7).
    exists (S ds), (n + dc). unfold max_iter in *.
    do 6 (split; [lia|]). split; [lia|].
    intros b Hb. destruct (I7 b Hb) as (J1 & J2 & J3).
    split; [lia|]. split.
    + intros ->. specialize (J2 eq_refl). lia.
    + intros ->. specialize (J3 eq_refl). lia.
Qed.

End AnyClosure.

Lemma clamp01_in_unit (v : R) : leb_total -> zero_le_one -> in_unit (clamp01 v).
Proof.
  unfold leb_total, zero_le_one. intros Ht H01. unfold clamp01, in_unit.
  assert (Hrefl : forall x : R, leb x x = true).
  { intros x. destruct (leb x x) eqn:E; [reflexivity|].
    rewrite <- E at 1. now apply Ht. }
  destruct (leb v zero) eqn:E0; [split; [apply Hrefl|exact H01]|].
  destruct (leb one v) eqn:E1; [split; [exact H01|apply Hrefl]|].
  split; now apply Ht.
Qed.

Lemma clamp_in_unit (x : Tensor R) :
  leb_total -> zero_le_one -> Forall in_unit (data (clamp_ x)).
Proof.
  intros Ht H01. unfold clamp_. cbn [data]. apply Forall_forall.
  intros v Hv. apply in_map_iff in Hv. destruct Hv as (u & <- & _).
  now apply clamp01_in_unit.
Qed.

(** What [clamp_(0, 1)] makes of a value under the order of the floats: a
    value that compares with itself lands in [0, 1], a NaN stays as it is. *)
Lemma clamp01_in_unit_or_nan (v : R) :
  leb_total_on_numbers -> bounds_are_numbers -> zero_le_one ->
  (leb v v = true -> in_unit (clamp01 v)) /\
  (leb v v = false -> leb v zero = false -> leb one v = false -> clamp01 v = v).
Proof.
  unfold leb_total_on_numbers, bounds_are_numbers, zero_le_one.
  intros Ht (H0 & H1) H01. unfold clamp01, in_unit. split.
  - intros Hv.
    destruct (leb v zero) eqn:E0; [split; assumption|].
    destruct (leb one v) eqn:E1; [split; assumption|].
    split; now apply Ht.
  - intros _ -> ->. reflexivity.
Qed.

Lemma clamp_in_unit_or_nan (x : Tensor R) :
  leb_total_on_numbers -> bounds_are_numbers -> zero_le_one ->
  Forall (fun v => in_unit v \/ not_a_number v) (data (clamp_ x)).
Proof.
  intros Ht Hb H01. unfold clamp_. cbn [data]. apply Forall_forall.
  intros v Hv. apply in_map_iff in Hv. destruct Hv as (u & <- & _).
  destruct (leb u u) eqn:Eu.
  - left. now apply clamp01_in_unit_or_nan.
  - unfold clamp01, in_unit, not_a_number. destruct Hb as (H0 & H1).
    destruct (leb u zero) eqn:E0; [left; split; assumption|].
    destruct (leb one u) eqn:E1; [left; split; assumption|].
    right. exact Eu.
Qed.

(** What a run of [run_style_transfer] amounts to: it raises, or it returns
    the working image as the final clamp left it; with [ds] outer steps and
    [dc] closure calls counted on the way. *)
Lemma run_style_transfer_counts (cnn : list (layer P))
    (mean std content_img style_img input_img0 : Tensor R)
    (num_steps : Z) (sw cw : R) (w : world) :
  exists ds dc,
    outer_steps (snd (run_style_transfer cnn mean std content_img style_img
                        input_img0 num_steps sw cw w)) = outer_steps w + ds /\
    closure_calls (snd (run_style_transfer cnn mean std content_img style_img
                          input_img0 num_steps sw cw w)) = closure_calls w + dc /\
    ds <= Z.to_nat (num_steps + 1) /\ ds <= dc /\ dc <= max_iter * ds /\
    fst (run_style_transfer cnn mean std content_img style_img
           input_img0 num_steps sw cw w) <> Ok None /\
    (forall img,
       fst (run_style_transfer cnn mean std content_img style_img
              input_img0 num_steps sw cw w) = Ok (Some img) ->
       run0 (snd (run_style_transfer cnn mean std content_img style_img
                    input_img0 num_steps sw cw w)) = dc /\
       (num_steps < Z.of_nat dc)%Z /\
       (ds = 0 \/ (Z.of_nat dc <= num_steps + Z.of_nat max_iter)%Z) /\
       exists x, img = clamp_ x).
Proof.
  unfold run_style_transfer, run_style_transfer_fuel.
  cbv beta iota delta [bind].
  pose proof (keeps_assembly cnn mean std style_img content_img
                content_layers_default style_layers_default w) as K.
  destruct (get_style_model_and_losses cnn mean std style_img content_img
              content_layers_default style_layers_default w)
    as [[[[model sl] cl]|e] w1]; unfold steady in K; counters.
  2:{ exists 0, 0. counted. }
  cbv beta iota delta [modify get ret].
  match goal with
  | |- context [while_loop ?f ?n ?c ?w2] =>
      destruct (while_loop_counts (closure_counts model sl cl sw cw) n f w2)
        as (ds & dc & L1 & L2 & L3 & L4 & L5 & L6 & _ & L7);
      destruct (while_loop f n c w2) as [[b|e] w3]
  end; counters.
  2:{ exists ds, dc. counted. }
  destruct (L7 b eq_refl) as (J1 & J2 & J3).
  exists ds, dc. destruct b.
  - specialize (J2 eq_refl). unfold max_iter in *. counters.
    do 5 (split; [lia|]). split; [discriminate|].
    intros img [= <-]. repeat split; try lia. eauto.
  - specialize (J3 eq_refl). lia.
Qed.

(** C5 (as amended). Whenever [run_style_transfer] returns, the image it
    returns is the working image as the final [clamp_(0, 1)] left it: every
    pixel value is in [0, 1], or is a NaN, which the clamp leaves as it is.
    The loop always ends, within [num_steps + 1] rounds.  The laws of the
    order are those of the floats: total on the values that compare with
    themselves, among them 0 and 1, with 0 <= 1. *)
Theorem run_style_transfer_clamped (cnn : list (layer P))
    (mean std content_img style_img input_img0 : Tensor R)
    (num_steps : Z) (sw cw : R) (w : world) :
  leb_total_on_numbers -> bounds_are_numbers -> zero_le_one ->
  match fst (run_style_transfer cnn mean std content_img style_img
               input_img0 num_steps sw cw w) with
  | Ok (Some img) =>
      (exists x, img = clamp_ x) /\
      Forall (fun v => in_unit v \/ not_a_number v) (data img)
  | Ok None => False
  | Raise _ => True
  end.
Proof.
  intros Ht Hb H01.
  destruct (run_style_transfer_counts cnn mean std content_img style_img
              input_img0 num_steps sw cw w)
    as (ds & dc & _ & _ & _ & _ & _ & Hnone & Hsome).
  destruct (fst (run_style_transfer cnn mean std content_img style_img
                   input_img0 num_steps sw cw w)) as [[img|]|e]; [|congruence|exact I].
  destruct (Hsome img eq_refl) as (_ & _ & _ & x & ->).
  split; [eauto|]. now apply clamp_in_unit_or_nan.
Qed.

(** C6 (as amended). The loop repeats while [run[0]] is at most the configured
    maximum and ends once it exceeds it.  The counter is advanced inside the
    closure, once per call of the closure that returns, so every evaluation
    the optimizer makes within one outer step advances it; the calls of the
    closure are at least as many as the outer steps and at most
    [max_iter] = 20 times as many.  Hence the loop performs at most
    max(0, [num_steps] + 1) outer steps, none when [num_steps] is negative;
    on return the counter is the number of closure calls, above [num_steps],
    and at most [num_steps + max_iter] when [num_steps] is not negative. *)
Theorem optimisation_loop_counts (cnn : list (layer P))
    (mean std content_img style_img input_img0 : Tensor R)
    (num_steps : Z) (sw cw : R) (w : world) :
  (forall (model : Sequential R P) (sl cl : list (Tap R)),
      counts_as_closure (closure model sl cl sw cw)) /\
  exists ds dc,
    outer_steps (snd (run_style_transfer cnn mean std content_img style_img
                        input_img0 num_steps sw cw w)) = outer_steps w + ds /\
    closure_calls (snd (run_style_transfer cnn mean std content_img style_img
                          input_img0 num_steps sw cw w)) = closure_calls w + dc /\
    (Z.of_nat ds <= Z.max 0 (num_steps + 1))%Z /\ ds <= dc /\ dc <= max_iter * ds /\
    ((num_steps < 0)%Z -> ds = 0 /\ dc = 0) /\
    fst (run_style_transfer cnn mean std content_img style_img
           input_img0 num_steps sw cw w) <> Ok None /\
    (forall img,
       fst (run_style_transfer cnn mean std content_img style_img
              input_img0 num_steps sw cw w) = Ok (Some img) ->
       run0 (snd (run_style_transfer cnn mean std content_img style_img
                    input_img0 num_steps sw cw w)) = dc /\
       (num_steps < Z.of_nat dc)%Z /\
       ((0 <= num_steps)%Z -> (Z.of_nat dc <= num_steps + Z.of_nat max_iter)%Z)).
Proof.
  split; [intros; apply closure_counts|].
  destruct (run_style_transfer_counts cnn mean std content_img style_img
              input_img0 num_steps sw cw w)
    as (ds & dc & H1 & H2 & H3 & H4 & H5 & H6 & H7).
  exists ds, dc. unfold max_iter in *.
  split; [assumption|]. split; [assumption|]. split; [lia|].
  split; [assumption|]. split; [assumption|]. split; [lia|].
  split; [assumption|].
  intros img Hi. destruct (H7 img Hi) as (? & ? & ? & _).
  repeat split; try assumption. lia.
Qed.

Lemma assembly_unrecognized (pre post : list (layer P)) (c : string) (p : P)
    (mean std style_img content_img : Tensor R) (cls sls : list string) (w : world) :
  get_style_model_and_losses (pre ++ OtherLayer c p :: post) mean std
    style_img content_img cls sls w
  = match Normalization_init mean std with
    | Ok nm =>
        match walk style_img content_img cls sls pre
                (mkAssembly [("0"%string, nm)] 0 [] []) w with
        | (Ok _, w1) => (Raise (RuntimeError ("Unrecognized layer: " ++ c)), w1)
        | (Raise e, w1) => (Raise e, w1)
        end
    | Raise e => (Raise e, w)
    end.
Proof.
  unfold get_style_model_and_losses. cbv beta iota delta [bind lift].
  destruct (Normalization_init mean std) as [nm|e]; [|reflexivity].
  rewrite walk_app.
  destruct (walk style_img content_img cls sls pre _ w) as [[st|e] w1]; reflexivity.
Qed.

(** C4 (as amended). For every feature extractor containing a layer of a kind
    outside the four recognised ones, model assembly never returns a model.
    When the walk reaches that layer, that is when assembly of the layers
    before it succeeds, the error is the unrecognized-layer error, raised
    after the forward evaluations of the taps placed before the layer; when
    no tap is placed before it, the error is raised before any forward
    evaluation, with the state untouched.  In every case
    [run_style_transfer] raises before the optimizer takes a step and before
    the closure is ever called. *)
Theorem unrecognized_layer_aborts (pre post : list (layer P)) (c : string) (p : P)
    (mean std style_img content_img : Tensor R) (cls sls : list string) (w : world) :
  (exists e,
      fst (get_style_model_and_losses (pre ++ OtherLayer c p :: post) mean std
             style_img content_img cls sls w) = Raise e) /\
  (forall m sl cl w1,
      get_style_model_and_losses pre mean std style_img content_img cls sls w
      = (Ok (m, sl, cl), w1) ->
      get_style_model_and_losses (pre ++ OtherLayer c p :: post) mean std
        style_img content_img cls sls w
      = (Raise (RuntimeError ("Unrecognized layer: " ++ c)), w1)) /\
  (forall nm,
      Normalization_init mean std = Ok nm ->
      forallb recognized pre = true ->
      no_tap_matches cls sls (walk_names 0 pre) ->
      get_style_model_and_losses (pre ++ OtherLayer c p :: post) mean std
        style_img content_img cls sls w
      = (Raise (RuntimeError ("Unrecognized layer: " ++ c)), w)) /\
  (forall input_img0 num_steps sw cw,
      (exists e,
          fst (run_style_transfer (pre ++ OtherLayer c p :: post) mean std
                 content_img style_img input_img0 num_steps sw cw w) = Raise e) /\
      steady w (snd (run_style_transfer (pre ++ OtherLayer c p :: post) mean std
                       content_img style_img input_img0 num_steps sw cw w))).
Proof.
  assert (HA : forall cls' sls', exists e,
             fst (get_style_model_and_losses (pre ++ OtherLayer c p :: post) mean std
                    style_img content_img cls' sls' w) = Raise e).
  { intros cls' sls'. rewrite assembly_unrecognized.
    destruct (Normalization_init mean std) as [nm|e]; [|cbn [fst]; eauto].
    destruct (walk style_img content_img cls' sls' pre _ w) as [[st|e] w1];
      cbn [fst]; eauto. }
  split; [apply HA|]. split; [|split].
  - intros m sl cl w1 H.
    destruct (assembly_ok _ _ _ _ _ _ _ _ H) as (nm & st & Hn & Hw & _).
    now rewrite assembly_unrecognized, Hn, Hw.
  - intros nm Hn Hrec Hno.
    destruct (@walk_no_match _ _ _ style_img content_img cls sls pre
                (mkAssembly [("0"%string, nm)] 0 [] []) w Hrec Hno)
      as (st & Hw & _).
    now rewrite assembly_unrecognized, Hn, Hw.
  - intros input_img0 num_steps sw cw.
    unfold run_style_transfer, run_style_transfer_fuel.
    cbv beta iota delta [bind].
    destruct (HA content_layers_default style_layers_default) as [e He].
    pose proof (keeps_assembly (pre ++ OtherLayer c p :: post) mean std
                  style_img content_img content_layers_default
                  style_layers_default w) as K.
    destruct (get_style_model_and_losses (pre ++ OtherLayer c p :: post) mean std
                style_img content_img content_layers_default
                style_layers_default w) as [[x|e1] w1]; [discriminate|].
    cbn [fst snd] in *. split; [eauto|exact K].
Qed.

End Loop.

(** * Concrete runs *)

Local Open Scope Z_scope.


Lemma Z_add_commutative : @add_commutative Z Scalar_Z.
Proof. intros x y. apply Z.add_comm. Qed.

Lemma Z_add_associative : @add_associative Z Scalar_Z.
Proof. intros x y z. symmetry. apply Z.add_assoc. Qed.

Lemma Z_leb_total : @leb_total Z Scalar_Z.
Proof. intros x y H. apply Z.leb_gt in H. apply Z.leb_le. lia. Qed.

Lemma Z_zero_le_one : @zero_le_one Z Scalar_Z.
Proof. reflexivity. Qed.

Lemma Z_leb_total_on_numbers : @leb_total_on_numbers Z Scalar_Z.
Proof. intros x y _ _ H. apply Z.leb_gt in H. apply Z.leb_le. lia. Qed.

Lemma Z_bounds_are_numbers : @bounds_are_numbers Z Scalar_Z.
Proof. split; reflexivity. Qed.

(** The laws of the order hold of the floats: the comparison of two floats is
    the opposite of their comparison the other way round, and is undefined
    only when one of them is a NaN. *)
Lemma SFcompare_antisym (x y : SpecFloat.spec_float) :
  SpecFloat.SFcompare y x = option_map CompOpp (SpecFloat.SFcompare x y).
Proof.
  destruct x as [sx|sx| |sx mx ex], y as [sy|sy| |sy my ey]; cbn;
    try reflexivity;
    try (destruct sx; reflexivity); try (destruct sy; reflexivity);
    try (destruct sx, sy; reflexivity).
  destruct sx, sy; cbn; try reflexivity.
  - rewrite (Z.compare_antisym ey ex). destruct (ey ?= ex); cbn; try reflexivity.
    f_equal. f_equal. exact (eq_sym (Pos.compare_cont_antisym mx my Eq)).
  - rewrite (Z.compare_antisym ey ex). destruct (ey ?= ex); cbn; try reflexivity.
    f_equal. exact (eq_sym (Pos.compare_cont_antisym mx my Eq)).
Qed.

Lemma SFcompare_none (x y : SpecFloat.spec_float) :
  SpecFloat.SFcompare x y = None ->
  SpecFloat.SFcompare x x = None \/ SpecFloat.SFcompare y y = None.
Proof.
  destruct x as [sx|sx| |sx mx ex], y as [sy|sy| |sy my ey]; cbn; auto;
    try discriminate;
    try (destruct sx; discriminate); try (destruct sy; discriminate).
Qed.

Lemma float_leb_total_on_numbers : @leb_total_on_numbers float Scalar_float.
Proof.
  intros x y. cbn [leb Scalar_float].
  rewrite !FloatAxioms.leb_spec. unfold SpecFloat.SFleb.
  rewrite (SFcompare_antisym (FloatOps.Prim2SF x) (FloatOps.Prim2SF y)).
  generalize (FloatOps.Prim2SF x) (FloatOps.Prim2SF y). intros a b Ha Hb.
  destruct (SpecFloat.SFcompare a b) as [[]|] eqn:E; cbn;
    try discriminate; try reflexivity.
  destruct (SFcompare_none _ _ E) as [N|N]; [rewrite N in Ha|rewrite N in Hb];
    discriminate.
Qed.

Lemma float_bounds_are_numbers : @bounds_are_numbers float Scalar_float.
Proof. split; vm_compute; reflexivity. Qed.

Lemma float_zero_le_one : @zero_le_one float Scalar_float.
Proof. vm_compute. reflexivity. Qed.


(** C7, at the same feature map. *)
Lemma gram_matrix_shape_and_value_witness :
  exists G,
    gram_matrix feature_2ch = Ok G /\
    G = gram_spec 1 2 1 3 feature_2ch /\
    shape G = [1 * 2; 1 * 2]%nat /\
    length (data G) = ((1 * 2) * (1 * 2))%nat /\
    (forall i j, (i < 1 * 2)%nat -> (j < 1 * 2)%nat ->
       at_ (data G) (i * (1 * 2) + j)
       = gram_entry (1 * 3) (of_nat (1 * 2 * 1 * 3)) feature_2ch i j) /\
    (1%nat = 1%nat -> shape G = [2; 2]%nat).
Proof.
  apply (@gram_matrix_shape_and_value Z Scalar_Z feature_2ch 1 2 1 3). reflexivity.
Defined.

(** C7 as first stated fails for a batch of two: with one channel the result
    is 2 x 2, not 1 x 1. *)
Lemma gram_matrix_size_counterexample :
  shape feature_batch2 = [2; 1; 1; 1]%nat /\
  gram_matrix feature_batch2 = Ok (mkTensor [2; 2]%nat [0; 1; 1; 2]) /\
  ~ (exists G, gram_matrix feature_batch2 = Ok G /\ shape G = [1; 1]%nat).
Proof.
  split; [reflexivity|]. split; [reflexivity|].
  intros (G & HG & Hs). vm_compute in HG. injection HG as <-. discriminate.
Qed.

(** C8, reordering the three positions of the two-channel feature map: over
    the integers the two matrices are equal. *)
Lemma gram_matrix_permutation_invariant_witness :
  exists G, gram_matrix feature_2ch = Ok G /\
            gram_matrix (permute_spatial [2; 0; 1]%nat feature_2ch) = Ok G.
Proof.
  destruct (@gram_matrix_permutation_invariant Z Scalar_Z feature_2ch 1 2 1 3
              [2; 0; 1]%nat eq_refl)
    as (G & G' & HG & HG' & _ & _ & _ & Heq).
  - eapply perm_trans; [apply perm_swap|apply perm_skip, perm_swap].
  - exists G. split; [exact HG|].
    rewrite <- (Heq Z_add_commutative Z_add_associative). exact HG'.
Defined.

(** C8 as first stated fails over the floats.  The products of the two
    channels of the map are 2^60, -2^60 and 1: added in this order they give
    1, and in the order 1, 2^60, -2^60 they give 0, the 1 being lost in
    2^60.  The entry off the diagonal is 1/6 for the map and 0 for the map
    with its positions rotated. *)
Lemma gram_matrix_permutation_counterexample :
  shape feature_cancel = [1; 2; 1; 3]%nat /\
  Permutation [2; 0; 1]%nat (seq 0 (1 * 3)) /\
  (exists G G',
      gram_matrix feature_cancel = Ok G /\
      gram_matrix (permute_spatial [2; 0; 1]%nat feature_cancel) = Ok G' /\
      at_ (data G) 1 = PrimFloat.div 1 6 /\
      at_ (data G') 1 = 0%float) /\
  gram_matrix (permute_spatial [2; 0; 1]%nat feature_cancel)
  <> gram_matrix feature_cancel.
Proof.
  split; [reflexivity|]. split.
  { eapply perm_trans; [apply perm_swap|apply perm_skip, perm_swap]. }
  split.
  { eexists _, _. split; [vm_compute; reflexivity|].
    split; [vm_compute; reflexivity|]. split; vm_compute; reflexivity. }
  intros H.
  apply (f_equal (fun r => match r with
                           | Ok G => PrimFloat.eqb (at_ (data G) 1) 0
                           | Raise _ => false
                           end)) in H.
  vm_compute in H. discriminate.
Qed.

(** C2, at an input of the shape of the target. *)
Lemma loss_taps_pass_through_witness :
  fst (@ContentLoss_forward Z Scalar_Z Backend_still tap_1x2 image_wild world0)
  = Ok image_wild.
Proof.
  rewrite (proj1 (@loss_taps_pass_through Z Scalar_Z Backend_still)
             tap_1x2 image_wild world0 eq_refl eq_refl eq_refl).
  reflexivity.
Defined.

(** C2 as first stated fails for an input the target cannot be broadcast
    against: a 1 x 2 map against a 1 x 3 target.  The tap raises and stores
    nothing. *)
Lemma loss_tap_shape_counterexample :
  fst (@ContentLoss_forward Z Scalar_Z Backend_still tap_1x3 image_1x2 world0)
  = Raise (RuntimeError "The size of tensor a must match the size of tensor b") /\
  snd (@ContentLoss_forward Z Scalar_Z Backend_still tap_1x3 image_1x2 world0)
  = world0.
Proof. split; reflexivity. Qed.

(** C3, at a feature extractor of one convolution and one activation: the
    model returned ends with the style tap of the convolution. *)
Lemma assembled_model_ends_with_last_tap_witness :
  exists m sl cl w',
    @get_style_model_and_losses Z Scalar_Z Backend_still [Conv2d tt; ReLU true]
      mean0 std1 image_1x3 image_2x2 content_layers_default style_layers_default
      world0 = (Ok (m, sl, cl), w') /\
    exists front name tp, m = front ++ [(name, LossModule tp)].
Proof.
  eexists _, _, _, _. split; [vm_compute; reflexivity|].
  destruct (@assembled_model_ends_with_last_tap Z Scalar_Z Backend_still
              [Conv2d tt; ReLU true] mean0 std1 image_1x3 image_2x2
              content_layers_default style_layers_default world0
              _ _ _ _ eq_refl)
    as (nm & st & _ & _ & _ & _ & [(_ & front & name & tp & rest & _ & _ & Hm)|(Hnil & _)]).
  - exists front, name, tp. exact Hm.
  - discriminate Hnil.
Defined.

(** C3 as first stated fails when no tap is inserted: with the default taps
    and a feature extractor without convolution, the model returned is the
    normalization module alone, and its final module is no loss. *)
Lemma assembled_model_without_tap_counterexample :
  exists nm,
    fst (@get_style_model_and_losses Z Scalar_Z Backend_still [ReLU true]
           mean0 std1 image_1x3 image_2x2 content_layers_default
           style_layers_default world0)
    = Ok ([("0"%string, nm)], [], []) /\
    is_loss nm = false.
Proof. eexists. split; reflexivity. Qed.

(** C10, at a feature extractor of an activation and a pooling layer, with a
    mean and a deviation of one value each, and with empty ones. *)
Lemma assembly_without_taps_witness :
  @get_style_model_and_losses Z Scalar_Z Backend_still [ReLU true; MaxPool2d tt]
    mean0 std1 image_1x3 image_2x2 content_layers_default style_layers_default
    world0
  = (Ok ([("0"%string, Normalization (mkTensor [1; 1; 1]%nat [0])
                                     (mkTensor [1; 1; 1]%nat [1]))], [], []),
     world0) /\
  @get_style_model_and_losses Z Scalar_Z Backend_still [ReLU true; MaxPool2d tt]
    (mkTensor [0]%nat []) (mkTensor [0]%nat []) image_1x3 image_2x2
    content_layers_default style_layers_default world0
  = (Ok ([("0"%string, Normalization (mkTensor [0; 1; 1]%nat [])
                                     (mkTensor [0; 1; 1]%nat []))], [], []),
     world0).
Proof.
  split.
  - apply (@assembly_without_taps Z Scalar_Z Backend_still [ReLU true; MaxPool2d tt]
             mean0 std1 image_1x3 image_2x2 content_layers_default
             style_layers_default world0).
    + reflexivity.
    + intros name [<-|[<-|[]]]; split; reflexivity.
  - apply (@assembly_without_taps Z Scalar_Z Backend_still [ReLU true; MaxPool2d tt]
             (mkTensor [0]%nat []) (mkTensor [0]%nat []) image_1x3 image_2x2
             content_layers_default style_layers_default world0).
    + reflexivity.
    + intros name [<-|[<-|[]]]; split; reflexivity.
Defined.

(** C10 as first stated fails when the feature extractor holds a layer of no
    recognised kind: no name produced matches a tap, and assembly raises. *)
Lemma assembly_without_taps_counterexample :
  no_tap_matches content_layers_default style_layers_default
    (walk_names (BE := Backend_still) 0 [ReLU true; OtherLayer "Dropout" tt]) /\
  fst (@get_style_model_and_losses Z Scalar_Z Backend_still
         [ReLU true; OtherLayer "Dropout" tt]
         mean0 std1 image_1x3 image_2x2 content_layers_default
         style_layers_default world0)
  = Raise (RuntimeError "Unrecognized layer: Dropout").
Proof.
  split; [|reflexivity].
  intros name [<-|[]]; split; reflexivity.
Qed.

(** C4, at an unrecognised layer with no tap before it. *)
Lemma unrecognized_layer_aborts_witness :
  @get_style_model_and_losses Z Scalar_Z Backend_still
    ([ReLU true] ++ OtherLayer "Dropout" tt :: [Conv2d tt])
    mean0 std1 image_1x3 image_2x2 content_layers_default style_layers_default
    world0
  = (Raise (RuntimeError "Unrecognized layer: Dropout"), world0).
Proof.
  refine (proj1 (proj2 (proj2
            (@unrecognized_layer_aborts Z Scalar_Z Backend_still [ReLU true]
               [Conv2d tt] "Dropout" tt mean0 std1 image_1x3 image_2x2
               content_layers_default style_layers_default world0)))
            _ eq_refl eq_refl _).
  intros name [<-|[]]; split; reflexivity.
Defined.

(** C4 as first stated fails when a tap precedes the unrecognised layer: the
    model is evaluated on the style image for the tap of the first
    convolution before the error is raised. *)
Lemma forward_before_unrecognized_counterexample :
  fst (@get_style_model_and_losses Z Scalar_Z Backend_still
         [Conv2d tt; OtherLayer "Dropout" tt]
         mean0 std1 image_1x3 image_2x2 content_layers_default
         style_layers_default world0)
  = Raise (RuntimeError "Unrecognized layer: Dropout") /\
  forwards (@world0 Backend_still) = 0%nat /\
  forwards (snd (@get_style_model_and_losses Z Scalar_Z Backend_still
                   [Conv2d tt; OtherLayer "Dropout" tt]
                   mean0 std1 image_1x3 image_2x2 content_layers_default
                   style_layers_default world0))
  = 1%nat.
Proof. repeat split. Qed.

(** C5, over the floats: at a run that starts where every loss is zero, which
    returns the image it was given, and at a run on an image with a NaN
    pixel and a pixel above 1, with a negative budget, which returns the
    image clamped. *)
Lemma run_style_transfer_clamped_witness :
  (fst (@run_style_transfer float Scalar_float Backend_still_float
          [Conv2d tt; ReLU true] mean0_float std1_float image_half image_half
          image_half 2 1%float 1%float world0_float)
   = Ok (Some image_half) /\
   Forall (fun v => in_unit v \/ not_a_number v) (data image_half)) /\
  (fst (@run_style_transfer float Scalar_float Backend_still_float
          [Conv2d tt; ReLU true] mean0_float std1_float image_half image_half
          image_nan (-1) 1%float 1%float world0_float)
   = Ok (Some (mkTensor [1; 1; 1; 2]%nat [nan; 1]%float)) /\
   Forall (fun v => in_unit v \/ not_a_number v) [nan; 1]%float).
Proof.
  split.
  - assert (E : fst (@run_style_transfer float Scalar_float Backend_still_float
                       [Conv2d tt; ReLU true] mean0_float std1_float image_half
                       image_half image_half 2 1%float 1%float world0_float)
                = Ok (Some image_half)) by (vm_compute; reflexivity).
    split; [exact E|].
    pose proof (@run_style_transfer_clamped float Scalar_float Backend_still_float
                  [Conv2d tt; ReLU true] mean0_float std1_float image_half
                  image_half image_half 2 1%float 1%float world0_float
                  float_leb_total_on_numbers float_bounds_are_numbers
                  float_zero_le_one) as H.
    rewrite E in H. exact (proj2 H).
  - assert (E : fst (@run_style_transfer float Scalar_float Backend_still_float
                       [Conv2d tt; ReLU true] mean0_float std1_float image_half
                       image_half image_nan (-1) 1%float 1%float world0_float)
                = Ok (Some (mkTensor [1; 1; 1; 2]%nat [nan; 1]%float)))
      by (vm_compute; reflexivity).
    split; [exact E|].
    pose proof (@run_style_transfer_clamped float Scalar_float Backend_still_float
                  [Conv2d tt; ReLU true] mean0_float std1_float image_half
                  image_half image_nan (-1) 1%float 1%float world0_float
                  float_leb_total_on_numbers float_bounds_are_numbers
                  float_zero_le_one) as H.
    rewrite E in H. exact (proj2 H).
Defined.

(** C5 as first stated fails on a working image with a NaN pixel: the final
    clamp leaves the NaN, which is not within [0, 1].  Here the budget is
    negative, so that the loop is skipped and the image returned is the image
    given, clamped. *)
Lemma clamped_image_nan_counterexample :
  fst (@run_style_transfer float Scalar_float Backend_still_float
         [Conv2d tt; ReLU true] mean0_float std1_float image_half image_half
         image_nan (-1) 1%float 1%float world0_float)
  = Ok (Some (mkTensor [1; 1; 1; 2]%nat [nan; 1]%float)) /\
  ~ in_unit (nan : float) /\
  ~ Forall in_unit [nan; 1]%float.
Proof.
  split; [vm_compute; reflexivity|].
  assert (Hnan : ~ in_unit (nan : float)).
  { intros [H _]. vm_compute in H. discriminate. }
  split; [exact Hnan|].
  intros H. inversion H as [|v l Hv _]. exact (Hnan Hv).
Qed.

(** C6, at a run with a budget of two steps. *)
Lemma optimisation_loop_counts_witness :
  exists ds dc : nat,
    (Z.of_nat ds <= Z.max 0 (2 + 1)) /\ (ds <= dc)%nat /\ (dc <= max_iter * ds)%nat /\
    (2 < Z.of_nat dc) /\ (Z.of_nat dc <= 2 + Z.of_nat max_iter).
Proof.
  destruct (proj2 (@optimisation_loop_counts Z Scalar_Z Backend_still
                     [Conv2d tt; ReLU true] mean0 std1 image_01 image_01
                     image_01 2 1 1 world0))
    as (ds & dc & _ & _ & H1 & H2 & H3 & _ & _ & H4).
  destruct (H4 image_01 eq_refl) as (_ & H5 & H6).
  exists ds, dc. repeat split; try assumption. apply H6. discriminate.
Defined.

(** C6 as first stated fails twice.  With a budget of two steps the loop makes
    three outer steps: the run starts where every loss is zero, each outer
    step evaluates the closure once, and the loop goes on while the counter
    is at most 2.  And the counter is advanced by the closure itself: two
    evaluations in a row, as [optimizer.step] makes when it evaluates the
    closure again, advance it by two. *)
Lemma outer_steps_counterexample :
  (outer_steps (snd (@run_style_transfer Z Scalar_Z Backend_still
                       [Conv2d tt; ReLU true] mean0 std1 image_01 image_01
                       image_01 2 1 1 world0)) = 3%nat /\
   closure_calls (snd (@run_style_transfer Z Scalar_Z Backend_still
                         [Conv2d tt; ReLU true] mean0 std1 image_01 image_01
                         image_01 2 1 1 world0)) = 3%nat /\
   run0 (snd (@run_style_transfer Z Scalar_Z Backend_still
                [Conv2d tt; ReLU true] mean0 std1 image_01 image_01
                image_01 2 1 1 world0)) = 3%nat) /\
  (exists m sl cl w1,
      @get_style_model_and_losses Z Scalar_Z Backend_still [Conv2d tt; ReLU true]
        mean0 std1 image_01 image_01 content_layers_default style_layers_default
        world0 = (Ok (m, sl, cl), w1) /\
      run0 (set_input_img image_01 w1) = 0%nat /\
      run0 (snd (bind (closure m sl cl 1 1) (fun _ => closure m sl cl 1 1)
                      (set_input_img image_01 w1))) = 2%nat).
Proof.
  split; [repeat split; vm_compute; reflexivity|].
  eexists _, _, _, _. split; [vm_compute; reflexivity|].
  split; vm_compute; reflexivity.
Qed.




(** * Further properties *)

Local Close Scope Z_scope.

(** ** Gram matrix: the ranks it accepts *)

Section GramRank.
Context {R : Type} `{SR : Scalar R}.

(** X1. For a tensor of rank 4 held in contiguous row-major storage, as the
    tensors of this model are, [gram_matrix] returns a matrix of
    batch * channels rows and as many columns, whatever the dimensions (zero
    included); for a tensor of another rank it raises ValueError, from the
    unpacking of [input.size()] into four names. *)
Theorem gram_matrix_rank (x : Tensor R) :
  (forall b c h w, shape x = [b; c; h; w] ->
     exists G, gram_matrix x = Ok G /\ shape G = [b * c; b * c] /\ wf G) /\
  (length (shape x) <> 4 ->
   exists msg, gram_matrix x = Raise (ValueError msg)).
Proof.
  split.
  - intros b c h w Hs. exists (gram_spec b c h w x).
    split; [now apply gram_matrix_eq|]. split; [reflexivity|].
    unfold wf, gram_spec. cbn [shape data numel fold_right].
    rewrite length_grid. lia.
  - intros Hn. unfold gram_matrix.
    destruct (shape x) as [|b [|c [|h [|w [|? ?]]]]]; eauto.
    now contradiction Hn.
Qed.

End GramRank.

(** ** Model assembly: what the model holds *)

Section AssemblyStructure.
Context {R : Type} `{SR : Scalar R} `{BE : @Backend R SR}.

Lemma name_layer_added (i i1 : nat) (l l1 : layer P) (name : string) :
  name_layer i l = Ok (i1, name, l1) -> as_added l1 = true.
Proof. destruct l; intros [= <- <- <-]; reflexivity. Qed.

(** Whatever is kept by adding a module the walk adds, under a name that is
    not that of the normalization module, is kept by the walk. *)
Lemma walk_model_inv (J : Sequential R P -> Prop)
    (style_img content_img : Tensor R) (cls sls : list string) :
  (forall model name m,
      J model -> String.eqb "0" name = false -> added_module m = true ->
      J (add_module model name m)) ->
  forall (cnn : list (layer P)) (st st' : assembly) (w w' : world),
    J (model st) ->
    walk style_img content_img cls sls cnn st w = (Ok st', w') ->
    J (model st').
Proof.
  intros Hadd. induction cnn as [|l rest IH]; intros st st' w w' HJ H.
  - now injection H as <- _.
  - cbn [walk] in H. unfold bind in H.
    destruct (walk_layer style_img content_img cls sls st l w) as [[st1|e] w1] eqn:E;
      [|discriminate].
    eapply IH; [|exact H].
    destruct (walk_layer_ok _ _ _ _ _ _ _ E)
      as (i1 & name & l1 & Hn & _ & model2 & cl2 & Hc & _ & Hs).
    destruct (name_layer_name _ _ Hn) as [_ H0n].
    pose proof (name_layer_added _ _ Hn) as Hl1.
    destruct (content_loss_name (string_of_nat i1)) as [_ Hc0].
    destruct (style_loss_name (string_of_nat i1)) as [_ Hs0].
    assert (H1 : J (add_module (model st) name (NNLayer l1))) by (apply Hadd; auto).
    assert (H2 : J model2).
    { destruct Hc as [(_ & -> & _)|(_ & tp & -> & _)]; [exact H1|].
      apply Hadd; auto. }
    destruct Hs as [(_ & -> & _)|(_ & tp & -> & _)]; [exact H2|].
    apply Hadd; auto.
Qed.

Lemma keys_add_module (model : Sequential R P) (name : string) (m : Module R P) :
  (In name (map fst model) -> map fst (add_module model name m) = map fst model) /\
  (~ In name (map fst model) ->
   map fst (add_module model name m) = map fst model ++ [name]).
Proof.
  induction model as [|[k m0] rest [IH1 IH2]]; cbn [map fst add_module In app].
  - split; [intros []|reflexivity].
  - destruct (String.eqb_spec k name) as [->|Hne]; cbn [map fst].
    + split; [reflexivity|]. intros Hn. exfalso. apply Hn. now left.
    + split.
      * intros [->|Hin]; [contradiction|]. now rewrite IH1.
      * intros Hn. rewrite IH2; [reflexivity|]. intros Hin. apply Hn. now right.
Qed.

Lemma NoDup_add_module (model : Sequential R P) (name : string) (m : Module R P) :
  NoDup (map fst model) -> NoDup (map fst (add_module model name m)).
Proof.
  intros HN. destruct (in_dec string_dec name (map fst model)) as [Hin|Hout].
  - now rewrite (proj1 (keys_add_module model name m) Hin).
  - rewrite (proj2 (keys_add_module model name m) Hout).
    apply NoDup_app; [exact HN|constructor; [intros []|constructor]|].
    intros k Hk [<-|[]]. contradiction.
Qed.

Lemma Forall_prefix {A} (Q : A -> Prop) (n : nat) (l : list A) :
  Forall Q l -> Forall Q (firstn n l).
Proof.
  intros HF. rewrite <- (firstn_skipn n l) in HF.
  now apply Forall_app in HF.
Qed.

Lemma trim_is_prefix (model : Sequential R P) (i : nat) :
  exists dropped, model = trim model i ++ dropped /\ (model <> [] -> trim model i <> []).
Proof.
  unfold trim. exists (skipn (scan_back model (rev (seq 0 (length model))) i + 1) model).
  split; [now rewrite firstn_skipn|].
  rewrite Nat.add_1_r. destruct model; [congruence|discriminate].
Qed.

(** X2. In the model an assembly returns, the names are pairwise distinct. *)
Theorem assembled_names_distinct
    (cnn : list (layer P)) (mean std style_img content_img : Tensor R)
    (cls sls : list string) (w w' : world)
    (m : Sequential R P) (sl cl : list (Tap R)) :
  get_style_model_and_losses cnn mean std style_img content_img cls sls w
  = (Ok (m, sl, cl), w') ->
  NoDup (map fst m).
Proof.
  intros H. destruct (assembly_ok _ _ _ _ _ _ _ _ H) as (nm & st & _ & Hw & -> & _).
  assert (HN : NoDup (map fst (model st))).
  { eapply (walk_model_inv (fun model => NoDup (map fst model))); [| |exact Hw].
    - intros model name m0 HJ _ _. now apply NoDup_add_module.
    - cbn. constructor; [intros []|constructor]. }
  destruct (trim_is_prefix (model st) (i st)) as (dropped & Hd & _).
  rewrite Hd, map_app in HN. eapply NoDup_app_remove_r. exact HN.
Qed.

(** X3. The model an assembly returns starts with the normalization module,
    under the name "0", and holds after it only loss modules and layers of a
    recognised kind, every activation among them out of place. *)
Theorem assembled_model_modules
    (cnn : list (layer P)) (mean std style_img content_img : Tensor R)
    (cls sls : list string) (w w' : world)
    (m : Sequential R P) (sl cl : list (Tap R)) :
  get_style_model_and_losses cnn mean std style_img content_img cls sls w
  = (Ok (m, sl, cl), w') ->
  exists mean' std' rest,
    view_m11 mean = Ok mean' /\ view_m11 std = Ok std' /\
    m = ("0"%string, Normalization mean' std') :: rest /\
    Forall (fun km => added_module (snd km) = true) rest.
Proof.
  intros H. destruct (assembly_ok _ _ _ _ _ _ _ _ H) as (nm & st & Hn & Hw & -> & _).
  assert (Hnm : exists mean' std',
             view_m11 mean = Ok mean' /\ view_m11 std = Ok std' /\
             nm = Normalization mean' std').
  { unfold Normalization_init in Hn.
    destruct (view_m11 mean) as [mean'|]; [|discriminate].
    destruct (view_m11 std) as [std'|]; [|discriminate].
    injection Hn as <-. eauto. }
  destruct Hnm as (mean' & std' & Hm & Hs & ->).
  exists mean', std'.
  assert (HJ : exists rest,
             model st = ("0"%string, Normalization mean' std') :: rest /\
             Forall (fun km => added_module (snd km) = true) rest).
  { eapply (walk_model_inv
              (fun model => exists rest,
                   model = ("0"%string, Normalization mean' std') :: rest /\
                   Forall (fun km => added_module (snd km) = true) rest));
      [| |exact Hw].
    - intros model name m0 (rest & -> & HF) H0 Hm0.
      exists (add_module rest name m0). split.
      + cbn [add_module]. now rewrite H0.
      + now apply Forall_add_module.
    - exists []. split; [reflexivity|constructor]. }
  destruct HJ as (rest & Hmodel & HF).
  unfold trim. rewrite Nat.add_1_r, Hmodel. cbn [firstn].
  eexists. repeat split; try assumption. now apply Forall_prefix.
Qed.

End AssemblyStructure.

(** ** Model assembly: evaluations, loss objects and their cells *)

Section AssemblyEffects.
Context {R : Type} `{SR : Scalar R} `{BE : @Backend R SR}.
Local Open Scope m_scope.

Lemma keeps_bind_of {A B X} (f : world -> X) (c : M A) (k : A -> M B) :
  keeps f c -> (forall a, keeps f (k a)) -> keeps f (bind c k).
Proof.
  intros Hc Hk w. unfold bind. specialize (Hc w).
  destruct (c w) as [[a|e] w1]; cbn [snd] in *; [|exact Hc].
  now rewrite Hk.
Qed.

Lemma keeps_ret_of {A X} (f : world -> X) (a : A) : keeps f (ret a).
Proof. intros w. reflexivity. Qed.

Lemma keeps_raise_of {A X} (f : world -> X) (e : exn) : keeps f (@raise _ _ _ A e).
Proof. intros w. reflexivity. Qed.

Lemma keeps_lift_of {A X} (f : world -> X) (r : result A) : keeps f (lift r).
Proof. intros w. reflexivity. Qed.

Lemma keeps_get_of {X} (f : world -> X) : keeps f get.
Proof. intros w. reflexivity. Qed.

Lemma keeps_modify_of {X} (f : world -> X) (g : world -> world) :
  (forall w, f (g w) = f w) -> keeps f (modify g).
Proof. intros Hg w. apply Hg. Qed.

Ltac keeps_steps :=
  repeat first
    [ apply keeps_bind_of; [|intros ?]
    | apply keeps_ret_of | apply keeps_raise_of | apply keeps_lift_of
    | apply keeps_get_of
    | apply keeps_modify_of; intros ?; reflexivity ].

Lemma length_update_nth {A} (l : list A) (k : nat) (a : A) :
  length (update_nth l k a) = length l.
Proof.
  revert k. induction l as [|x l IH]; intros [|k]; cbn; auto.
Qed.

(** Evaluating a module leaves alone whatever a stored loss does not touch. *)
Lemma keeps_module_forward_of {X} (f : world -> X) (m : Module R P) (x : Tensor R) :
  (forall (w : world) (h : list (option R)),
      length h = length (heap w) -> f (set_heap h w) = f w) ->
  keeps f (module_forward m x).
Proof.
  intros Hf.
  assert (Hstore : forall tp l, keeps f (store_loss tp l)).
  { intros tp l. unfold store_loss. apply keeps_modify_of. intros w.
    apply Hf. apply length_update_nth. }
  destruct m as [mean std|l|tp]; cbn [module_forward]; [keeps_steps|keeps_steps|].
  destruct (kind tp); unfold ContentLoss_forward, StyleLoss_forward;
    keeps_steps; apply Hstore.
Qed.

Lemma keeps_Sequential_forward_of {X} (f : world -> X) (model : Sequential R P) :
  (forall (w : world) (h : list (option R)),
      length h = length (heap w) -> f (set_heap h w) = f w) ->
  forall x, keeps f (Sequential_forward model x).
Proof.
  intros Hf. induction model as [|[name m] rest IH]; intros x; cbn [Sequential_forward].
  - keeps_steps.
  - apply keeps_bind_of; [now apply keeps_module_forward_of|intros y; apply IH].
Qed.

(** One evaluation [model(x)] is counted once and leaves the heap its size. *)
Lemma call_model_effect (model : Sequential R P) (x : Tensor R) (w : world) :
  forwards (snd (call_model model x w)) = S (forwards w) /\
  heap_size (snd (call_model model x w)) = heap_size w.
Proof.
  unfold call_model. cbv beta iota delta [bind modify].
  pose proof (@keeps_Sequential_forward_of _ forwards model
                (fun _ _ _ => eq_refl) x (count_forward w)) as Hf.
  pose proof (@keeps_Sequential_forward_of _ heap_size model
                (fun _ _ E => E) x (count_forward w)) as Hh.
  destruct (Sequential_forward model x (count_forward w)) as [[y|e] w1];
    cbn [snd] in *; split; assumption.
Qed.

Ltac effect_done :=
  unfold heap_size in *;
  cbn [heap set_heap forwards snd model i content_losses style_losses] in *;
  rewrite ?app_nil_r; rewrite ?length_app in *; cbn [length] in *;
  do 6 (split; [reflexivity|]);
  split; [solve [repeat constructor]|]; split; [solve [repeat constructor]|];
  split; [cbn; solve [repeat (f_equal; try lia)]|];
  split; lia.

(** One iteration of the walk, on the state: the loss objects it records are
    new, each in a fresh cell, and the model is evaluated once for each. *)
Lemma walk_layer_effect (style_img content_img : Tensor R) (cls sls : list string)
    (st st' : assembly) (l : layer P) (w w' : world) :
  walk_layer style_img content_img cls sls st l w = (Ok st', w') ->
  exists i1 name l1 new_c new_s,
    name_layer (i st) l = Ok (i1, name, l1) /\ i st' = i1 /\
    content_losses st' = content_losses st ++ new_c /\
    style_losses st' = style_losses st ++ new_s /\
    length new_c = (if name_in name cls then 1 else 0) /\
    length new_s = (if name_in name sls then 1 else 0) /\
    Forall (fun tp => kind tp = ContentLoss) new_c /\
    Forall (fun tp => kind tp = StyleLoss) new_s /\
    map (@cell R) (new_c ++ new_s) = seq (heap_size w) (length (new_c ++ new_s)) /\
    forwards w' = forwards w + length (new_c ++ new_s) /\
    heap_size w' = heap_size w + length (new_c ++ new_s).
Proof.
  unfold walk_layer, bind, lift.
  destruct (name_layer (i st) l) as [[[i1 name] l1]|e]; [|discriminate].
  intros H. exists i1, name, l1.
  destruct (name_in name cls) eqn:Ec.
  - match type of H with
    | context [call_model ?m content_img w] =>
        destruct (call_model_effect m content_img w) as [F1 H1];
        destruct (call_model m content_img w) as [[tgt|e] w1]; [|discriminate]
    end.
    unfold ContentLoss_init, new_object, bind, get, modify, ret in H.
    cbn [model content_losses style_losses snd] in *.
    destruct (name_in name sls) eqn:Es.
    + match type of H with
      | context [call_model ?m style_img ?w2] =>
          destruct (call_model_effect m style_img w2) as [F2 H2];
          destruct (call_model m style_img w2) as [[tf|e] w3]; [|discriminate]
      end.
      unfold StyleLoss_init, new_object, bind, lift, get, modify, ret in H.
      destruct (gram_matrix tf) as [G|e]; [|discriminate].
      injection H as <- <-. eexists [_], [_]. effect_done.
    + injection H as <- <-. eexists [_], []. effect_done.
  - unfold ret in H. cbn [model content_losses style_losses] in H.
    destruct (name_in name sls) eqn:Es.
    + match type of H with
      | context [call_model ?m style_img ?w2] =>
          destruct (call_model_effect m style_img w2) as [F2 H2];
          destruct (call_model m style_img w2) as [[tf|e] w3]; [|discriminate]
      end.
      unfold StyleLoss_init, new_object, bind, lift, get, modify, ret in H.
      destruct (gram_matrix tf) as [G|e]; [|discriminate].
      injection H as <- <-. eexists [], [_]. effect_done.
    + injection H as <- <-. exists [], []. effect_done.
Qed.

Lemma walk_effect (style_img content_img : Tensor R) (cls sls : list string)
    (cnn : list (layer P)) :
  forall (st st' : assembly) (w w' : world),
    walk style_img content_img cls sls cnn st w = (Ok st', w') ->
    exists new_c new_s news,
      content_losses st' = content_losses st ++ new_c /\
      style_losses st' = style_losses st ++ new_s /\
      Permutation news (new_c ++ new_s) /\
      map (@cell R) news = seq (heap_size w) (length news) /\
      forwards w' = forwards w + length news /\
      heap_size w' = heap_size w + length news /\
      length new_c
      = length (filter (fun n => name_in n cls) (walk_names (i st) cnn)) /\
      length new_s
      = length (filter (fun n => name_in n sls) (walk_names (i st) cnn)) /\
      Forall (fun tp => kind tp = ContentLoss) new_c /\
      Forall (fun tp => kind tp = StyleLoss) new_s.
Proof.
  induction cnn as [|l rest IH]; intros st st' w w' H.
  - injection H as <- <-. exists [], [], []. cbn. rewrite !app_nil_r.
    repeat split; try constructor; lia.
  - cbn [walk] in H. unfold bind in H.
    destruct (walk_layer style_img content_img cls sls st l w) as [[st1|e] w1] eqn:E;
      [|discriminate].
    destruct (walk_layer_effect _ _ _ _ _ _ _ E)
      as (i1 & name & l1 & nc1 & ns1 & Hn & Hi & Hc1 & Hs1 & Lc1 & Ls1 & Kc1 & Ks1
          & Hcell1 & F1 & Z1).
    destruct (IH _ _ _ _ H)
      as (nc2 & ns2 & news2 & Hc2 & Hs2 & HP & Hcell2 & F2 & Z2 & Lc2 & Ls2 & Kc2 & Ks2).
    exists (nc1 ++ nc2), (ns1 ++ ns2), ((nc1 ++ ns1) ++ news2).
    cbn [walk_names]. rewrite Hn. rewrite Hi in *. cbn [filter].
    split; [now rewrite Hc2, Hc1, app_assoc|].
    split; [now rewrite Hs2, Hs1, app_assoc|].
    split.
    { rewrite HP. rewrite <- !app_assoc. apply Permutation_app_head.
      rewrite !app_assoc. apply Permutation_app_tail. apply Permutation_app_comm. }
    split.
    { rewrite map_app, Hcell1, Hcell2, Z1, (length_app (nc1 ++ ns1) news2).
      now rewrite seq_app. }
    rewrite !length_app in *.
    split; [lia|]. split; [lia|].
    split; [destruct (name_in name cls); cbn [length]; lia|].
    split; [destruct (name_in name sls); cbn [length]; lia|].
    split; apply Forall_app; auto.
Qed.

Lemma assembly_effect (cnn : list (layer P)) (mean std style_img content_img : Tensor R)
    (cls sls : list string) (w w' : world)
    (m : Sequential R P) (sl cl : list (Tap R)) :
  get_style_model_and_losses cnn mean std style_img content_img cls sls w
  = (Ok (m, sl, cl), w') ->
  exists news,
    Permutation news (cl ++ sl) /\
    map (@cell R) news = seq (heap_size w) (length news) /\
    forwards w' = forwards w + length news /\
    heap_size w' = heap_size w + length news /\
    length cl = length (filter (fun n => name_in n cls) (walk_names 0 cnn)) /\
    length sl = length (filter (fun n => name_in n sls) (walk_names 0 cnn)) /\
    Forall (fun tp => kind tp = ContentLoss) cl /\
    Forall (fun tp => kind tp = StyleLoss) sl.
Proof.
  intros H. destruct (assembly_ok _ _ _ _ _ _ _ _ H) as (nm & st & _ & Hw & _ & -> & ->).
  apply walk_effect in Hw.
  destruct Hw as (nc & ns & news & Hc & Hs & HP & Hcell & F & Z & Lc & Ls & Kc & Ks).
  cbn [content_losses style_losses app i] in *. subst.
  exists news. repeat split; assumption.
Qed.

(** X4. A model assembly that returns has evaluated the model exactly once
    for each loss it recorded, and has created exactly one loss object for
    each. *)
Theorem assembly_evaluations
    (cnn : list (layer P)) (mean std style_img content_img : Tensor R)
    (cls sls : list string) (w w' : world)
    (m : Sequential R P) (sl cl : list (Tap R)) :
  get_style_model_and_losses cnn mean std style_img content_img cls sls w
  = (Ok (m, sl, cl), w') ->
  forwards w' = forwards w + (length sl + length cl) /\
  heap_size w' = heap_size w + (length sl + length cl).
Proof.
  intros H. destruct (assembly_effect _ _ _ _ _ _ _ _ H)
    as (news & HP & _ & F & Z & _).
  apply Permutation_length in HP. rewrite length_app in HP. lia.
Qed.

(** X5. The loss objects an assembly returns are pairwise distinct objects:
    each has a cell of its own, created during this assembly, so that storing
    the loss of one never overwrites the loss of another. *)
Theorem assembly_losses_separate
    (cnn : list (layer P)) (mean std style_img content_img : Tensor R)
    (cls sls : list string) (w w' : world)
    (m : Sequential R P) (sl cl : list (Tap R)) :
  get_style_model_and_losses cnn mean std style_img content_img cls sls w
  = (Ok (m, sl, cl), w') ->
  NoDup (map (@cell R) (cl ++ sl)) /\
  Forall (fun tp => heap_size w <= cell tp < heap_size w') (cl ++ sl).
Proof.
  intros H. destruct (assembly_effect _ _ _ _ _ _ _ _ H)
    as (news & HP & Hcell & _ & Z & _).
  pose proof (Permutation_map (@cell R) HP) as HPc. rewrite Hcell in HPc.
  split.
  - eapply Permutation_NoDup; [exact HPc|apply seq_NoDup].
  - apply Forall_forall. intros tp Hin.
    assert (Hc : In (cell tp) (seq (heap_size w) (length news))).
    { eapply Permutation_in; [symmetry; exact HPc|]. now apply in_map. }
    apply in_seq in Hc. lia.
Qed.

(** X6. An assembly that returns has recorded one ContentLoss for each layer
    name produced during the walk that is in the content-tap set, and one
    StyleLoss for each that is in the style-tap set, and nothing else. *)
Theorem assembly_loss_counts
    (cnn : list (layer P)) (mean std style_img content_img : Tensor R)
    (cls sls : list string) (w w' : world)
    (m : Sequential R P) (sl cl : list (Tap R)) :
  get_style_model_and_losses cnn mean std style_img content_img cls sls w
  = (Ok (m, sl, cl), w') ->
  length cl = length (filter (fun n => name_in n cls) (walk_names 0 cnn)) /\
  length sl = length (filter (fun n => name_in n sls) (walk_names 0 cnn)) /\
  Forall (fun tp => kind tp = ContentLoss) cl /\
  Forall (fun tp => kind tp = StyleLoss) sl.
Proof.
  intros H. destruct (assembly_effect _ _ _ _ _ _ _ _ H)
    as (news & _ & _ & _ & _ & Lc & Ls & Kc & Ks).
  repeat split; assumption.
Qed.

End AssemblyEffects.

(** ** Model evaluation: the losses it stores *)

Section EvaluationEffects.
Context {R : Type} `{SR : Scalar R} `{BE : @Backend R SR}.
Local Open Scope m_scope.

Lemma nth_error_update_other {A} (l : list A) (k c : nat) (a : A) :
  k <> c -> nth_error (update_nth l k a) c = nth_error l c.
Proof.
  revert k c. induction l as [|x l IH]; intros [|k] [|c] Hne; cbn; auto; lia.
Qed.

(** What evaluating one module does to the state: nothing, unless the module
    is a loss object whose loss could be computed, which is then stored. *)
Lemma module_forward_cases (m : Module R P) (x : Tensor R) (w : world) :
  snd (module_forward m x w) = w /\
  (forall tp, m = LossModule tp -> exists e, fst (module_forward m x w) = Raise e) \/
  exists tp l,
    m = LossModule tp /\
    module_forward m x w
    = (Ok x, set_heap (update_nth (heap w) (cell tp) (Some l)) w).
Proof.
  destruct m as [mean std|l|tp]; cbn [module_forward].
  1, 2: left; split; [reflexivity|discriminate].
  destruct (kind tp);
    unfold ContentLoss_forward, StyleLoss_forward, bind, lift, store_loss, modify, ret.
  - destruct (mse_loss x (target tp)) as [l|e].
    + right. exists tp, l. split; reflexivity.
    + left. split; [reflexivity|]. intros _ _. now exists e.
  - destruct (gram_matrix x) as [G|e];
      [|left; split; [reflexivity|]; intros _ _; now exists e].
    destruct (mse_loss G (target tp)) as [l|e].
    + right. exists tp, l. split; reflexivity.
    + left. split; [reflexivity|]. intros _ _. now exists e.
Qed.

Lemma loss_at_store_other (w : world) (k c : nat) (l : R) :
  k <> c -> loss_at (set_heap (update_nth (heap w) k (Some l)) w) c = loss_at w c.
Proof.
  intros Hne. unfold loss_at. cbn [heap set_heap].
  now rewrite nth_error_update_other.
Qed.

Lemma loss_at_store_same (w : world) (k : nat) (l : R) :
  k < heap_size w ->
  loss_at (set_heap (update_nth (heap w) k (Some l)) w) k = Some l.
Proof.
  intros Hk. unfold loss_at. cbn [heap set_heap].
  now rewrite nth_error_update_nth.
Qed.

(** X7. Evaluating a model overwrites the stored loss of the loss objects in
    that model only: the loss of any other object is left as it was, whether
    the evaluation returns or raises. *)
Theorem evaluation_leaves_other_losses (model : Sequential R P) (x : Tensor R)
    (w : world) (c : nat) :
  (forall tp, In tp (model_taps model) -> cell tp <> c) ->
  loss_at (snd (call_model model x w)) c = loss_at w c.
Proof.
  intros Hout. unfold call_model. cbv beta iota delta [bind modify].
  change (loss_at w c) with (loss_at (count_forward w) c).
  generalize (count_forward w). clear w. revert x.
  induction model as [|[name m] rest IH]; intros x w; cbn [Sequential_forward].
  - reflexivity.
  - unfold bind.
    assert (Hrest : forall tp, In tp (model_taps rest) -> cell tp <> c).
    { intros tp Hin. apply Hout. unfold model_taps. cbn [flat_map].
      apply in_or_app. now right. }
    destruct (module_forward_cases m x w) as [[Hw _]|(tp & l & -> & ->)].
    + destruct (module_forward m x w) as [[y|e] w1]; cbn [snd] in Hw; subst w1;
        [now apply IH|reflexivity].
    + rewrite IH by assumption. apply loss_at_store_other.
      apply Hout. cbn. now left.
Qed.

Lemma loss_kept_by_forward (model : Sequential R P) (c : nat) :
  forall (x : Tensor R) (w : world),
    (exists l, loss_at w c = Some l) ->
    exists l, loss_at (snd (Sequential_forward model x w)) c = Some l.
Proof.
  induction model as [|[name m] rest IH]; intros x w Hc; cbn [Sequential_forward].
  - exact Hc.
  - unfold bind.
    destruct (module_forward_cases m x w) as [[Hw _]|(tp & l & -> & ->)].
    + destruct (module_forward m x w) as [[y|e] w1]; cbn [snd] in Hw; subst w1;
        [now apply IH|exact Hc].
    + apply IH. destruct Hc as [l0 Hc].
      destruct (Nat.eq_dec (cell tp) c) as [<-|Hne].
      * exists l. apply loss_at_store_same. unfold heap_size, loss_at in *.
        apply nth_error_Some. destruct (nth_error (heap w) (cell tp)); congruence.
      * exists l0. now rewrite loss_at_store_other.
Qed.

Lemma forward_stores_every_loss (model : Sequential R P) (tp : Tap R) :
  forall (x y : Tensor R) (w w' : world),
    Sequential_forward model x w = (Ok y, w') ->
    In tp (model_taps model) ->
    cell tp < heap_size w ->
    exists l, loss_at w' (cell tp) = Some l.
Proof.
  induction model as [|[name m] rest IH]; intros x y w w' H Hin Hc; [destruct Hin|].
  cbn [Sequential_forward] in H. unfold bind in H.
  unfold model_taps in Hin. cbn [flat_map snd] in Hin. apply in_app_or in Hin.
  destruct (module_forward_cases m x w) as [[Hw Hraise]|(tp0 & l & -> & E)].
  - destruct (module_forward m x w) as [[y1|e] w1] eqn:E; [|discriminate].
    cbn [snd fst] in *. subst w1.
    destruct Hin as [Hin|Hin]; [|now apply (IH _ _ _ _ H)].
    destruct m as [mean std|l|tp0]; cbn in Hin; try contradiction.
    destruct (Hraise tp0 eq_refl) as [e He]. discriminate.
  - rewrite E in H.
    destruct Hin as [[->|[]]|Hin].
    + pose proof (@loss_kept_by_forward rest (cell tp) x
                    (set_heap (update_nth (heap w) (cell tp) (Some l)) w)
                    (ex_intro _ l (@loss_at_store_same w (cell tp) l Hc))) as Hk.
      now rewrite H in Hk.
    + apply (IH _ _ _ _ H Hin). unfold heap_size in *. cbn [heap set_heap].
      now rewrite length_update_nth.
Qed.

(** X8. After an evaluation of the model that returns, every loss object of
    the model has a loss stored, so that reading [loss] from it succeeds. *)
Theorem evaluation_stores_every_loss (model : Sequential R P) (x y : Tensor R)
    (w w' : world) (tp : Tap R) :
  call_model model x w = (Ok y, w') ->
  In tp (model_taps model) ->
  cell tp < heap_size w ->
  exists l, read_loss tp w' = (Ok l, w').
Proof.
  intros H Hin Hc. unfold call_model in H. cbv beta iota delta [bind modify] in H.
  destruct (forward_stores_every_loss _ _ _ _ H Hin Hc) as [l Hl].
  exists l. unfold read_loss, bind, get, ret. unfold loss_at in Hl.
  destruct (nth_error (heap w') (cell tp)) as [[l1|]|]; try discriminate.
  now injection Hl as ->.
Qed.

End EvaluationEffects.

(** ** The closure and the working image *)

Section ClosureEffects.
Context {R : Type} `{SR : Scalar R} `{BE : @Backend R SR}.
Local Open Scope m_scope.

Ltac keeps_steps :=
  repeat first
    [ apply keeps_bind_of; [|intros ?]
    | apply keeps_ret_of | apply keeps_raise_of | apply keeps_lift_of
    | apply keeps_get_of
    | apply keeps_modify_of; intros ?; reflexivity ].

Lemma keeps_image_call_model (model : Sequential R P) (x : Tensor R) :
  keeps input_img (call_model model x).
Proof.
  unfold call_model. apply keeps_bind_of; [keeps_steps|intros _].
  apply keeps_Sequential_forward_of. reflexivity.
Qed.

Lemma keeps_image_sum_losses (taps : list (Tap R)) :
  forall acc, keeps input_img (sum_losses taps acc).
Proof.
  induction taps as [|tp rest IH]; intros acc; cbn [sum_losses]; [keeps_steps|].
  apply keeps_bind_of; [|intros l; apply IH].
  unfold read_loss. apply keeps_bind_of; [keeps_steps|intros w].
  destruct (nth_error (heap w) (cell tp)) as [[l|]|]; keeps_steps.
Qed.

Lemma keeps_image_backward (loss : score) (g : Tensor R) :
  keeps input_img (backward loss g).
Proof. destruct loss; intros w; reflexivity. Qed.

Lemma keeps_image_item (s : score) : keeps input_img (item s).
Proof. destruct s; intros w; reflexivity. Qed.

Ltac image_call K :=
  match goal with
  | |- context [match ?c ?w with _ => _ end] =>
      let H := fresh "K" in
      pose proof (K w) as H;
      destruct (c w) as [[?|?] ?];
      cbn [fst snd input_img set_run0 print set_input_grad set_input_img
           count_closure count_forward] in *
  end.

(** The closure does to the working image what its first statement does. *)
Lemma closure_image (model : Sequential R P) (sl cl : list (Tap R))
    (sw cw : R) (w : world) :
  input_img (snd (closure model sl cl sw cw w)) = clamp_ (input_img w).
Proof.
  unfold closure. cbv beta iota delta [bind modify get ret].
  image_call (keeps_image_call_model model (input_img
     (set_input_grad None (set_input_img (clamp_ (input_img (count_closure w)))
                                         (count_closure w))))); [|assumption].
  image_call (keeps_image_sum_losses sl (PyNum zero)); [|congruence].
  image_call (keeps_image_sum_losses cl (PyNum zero)); [|congruence].
  match goal with
  | |- context [backward ?l ?g] => image_call (keeps_image_backward l g); [|congruence]
  end.
  match goal with
  | |- context [if ?c then _ else _] => destruct c
  end; cbv beta iota; [|cbn [snd input_img set_run0]; congruence].
  match goal with
  | |- context [item ?s] => image_call (keeps_image_item s); [|congruence]
  end.
  match goal with
  | |- context [item ?s] => image_call (keeps_image_item s); [|congruence]
  end.
  congruence.
Qed.

(** X9. Every call of the closure, whether it returns or raises, leaves the
    working image clamped: the image after the call is the image before it
    with [clamp_(0, 1)] applied, and nothing else in the closure touches it.
    With a total order on the scalars and 0 <= 1, every pixel is then in
    [0, 1]. *)
Theorem closure_clamps_image (model : Sequential R P) (sl cl : list (Tap R))
    (sw cw : R) (w : world) :
  input_img (snd (closure model sl cl sw cw w)) = clamp_ (input_img w) /\
  (leb_total -> zero_le_one ->
   Forall in_unit (data (input_img (snd (closure model sl cl sw cw w))))).
Proof.
  split; [apply closure_image|].
  intros Ht H01. rewrite closure_image. now apply clamp_in_unit.
Qed.

(** The closure of a run that recorded no loss at all never returns: the sum
    of the scores is a number, which has no [backward]. *)
Lemma closure_without_losses (model : Sequential R P) (sw cw : R) (w : world) :
  exists e, fst (closure model [] [] sw cw w) = Raise e.
Proof.
  unfold closure. cbv beta iota delta [bind modify get ret].
  match goal with
  | |- context [match ?c ?w with _ => _ end] => destruct (c w) as [[?|?] ?]
  end; cbn; eauto.
Qed.

(** The fiftieth call of the closure reports the scores; a score summed over
    an empty list of losses is a number, which has no [item]. *)
Lemma closure_report_raises (model : Sequential R P) (sl cl : list (Tap R))
    (sw cw : R) (w : world) :
  sl = [] \/ cl = [] -> run0 w = 49 ->
  exists e, fst (closure model sl cl sw cw w) = Raise e.
Proof.
  intros Hempty H49. unfold closure. cbv beta iota delta [bind modify get ret].
  match goal with
  | |- context [match ?c ?w0 with _ => _ end] =>
      pose proof (keeps_call_model model (input_img w0) w0) as K;
      destruct (c w0) as [[?|?] w1]; [|cbn; eauto]
  end.
  pose proof (keeps_sum_losses sl (PyNum zero) w1) as K1.
  destruct (sum_losses sl (PyNum zero) w1) as [[s1|?] w2] eqn:E1; [|cbn; eauto].
  pose proof (keeps_sum_losses cl (PyNum zero) w2) as K2.
  destruct (sum_losses cl (PyNum zero) w2) as [[s2|?] w3] eqn:E2; [|cbn; eauto].
  match goal with
  | |- context [backward ?l ?g] =>
      pose proof (keeps_backward l g w3) as K3;
      destruct (backward l g w3) as [[?|?] w4]; [|cbn; eauto]
  end.
  unfold steady in *. cbn [snd] in *.
  cbn [fst snd run0 closure_calls outer_steps set_run0 print set_input_grad
       set_input_img count_closure count_forward] in *.
  replace (run0 w4 + 1) with 50 by lia. cbn [Nat.modulo Nat.eqb].
  change (50 mod 50 =? 0) with true. cbv beta iota.
  destruct Hempty as [-> | ->].
  - cbn [sum_losses] in E1. injection E1 as <- _. cbn. eauto.
  - cbn [sum_losses] in E2. injection E2 as <- _.
    destruct (score_scale s1 sw); cbn; eauto.
Qed.

End ClosureEffects.

(** ** Runs that cannot return, and the shape of the image returned *)

Section RunOutcomes.
Context {R : Type} `{SR : Scalar R} `{BE : @Backend R SR}.
Local Open Scope m_scope.

Section FiftiethCall.
Variable cl : M (@score R).
Hypothesis Hcl : counts_as_closure cl.
Hypothesis H49 : forall w, run0 w = 49 -> exists e, fst (cl w) = Raise e.

Lemma closure_below_fifty (w : world) (a : score) :
  run0 w < 50 -> fst (cl w) = Ok a -> run0 (snd (cl w)) < 50.
Proof.
  intros Hlt Hok. destruct (Hcl w) as (_ & _ & _ & H1). specialize (H1 a Hok).
  destruct (Nat.eq_dec (run0 w) 49) as [E|E]; [|lia].
  destruct (H49 w E) as [e He]. congruence.
Qed.

Lemma lbfgs_iterate_below_fifty (left : nat) :
  forall (loss : R) (w : world) (a : unit),
    run0 w < 50 -> fst (lbfgs_iterate left cl loss w) = Ok a ->
    run0 (snd (lbfgs_iterate left cl loss w)) < 50.
Proof.
  induction left as [|k IH]; intros loss w a Hlt; [intros _; exact Hlt|].
  cbn [lbfgs_iterate]. cbv beta iota delta [bind get modify ret].
  destruct (lbfgs_direction (ost w) (input_img w) (input_grad w) loss)
    as [[s x]|]; [|intros _; exact Hlt].
  destruct k as [|k]; [intros _; exact Hlt|].
  pose proof (@closure_below_fifty (set_input_img x (set_ost s w))) as Hc.
  destruct (cl (set_input_img x (set_ost s w))) as [[l|e] w2]; cbn [fst snd] in *;
    [|discriminate].
  specialize (Hc l Hlt eq_refl).
  destruct (lbfgs_break (ost w2) (input_grad w2) (score_value l));
    [intros _; exact Hc|].
  now apply IH.
Qed.

Lemma optimizer_step_below_fifty (w : world) (a : unit) :
  run0 w < 50 -> fst (optimizer_step cl w) = Ok a ->
  run0 (snd (optimizer_step cl w)) < 50.
Proof.
  intros Hlt. unfold optimizer_step. cbv beta iota delta [bind get modify ret].
  pose proof (@closure_below_fifty (count_step w)) as Hc.
  destruct (cl (count_step w)) as [[l|e] w1]; cbn [fst snd] in *; [|discriminate].
  specialize (Hc l Hlt eq_refl).
  destruct (lbfgs_optimal (input_grad w1)); [intros _; exact Hc|].
  now apply lbfgs_iterate_below_fifty.
Qed.

(** A loop whose closure raises at its fiftieth call never gets the counter
    to fifty. *)
Lemma while_loop_below_fifty (num_steps : Z) (fuel : nat) :
  forall (w : world) (b : bool),
    run0 w < 50 -> fst (while_loop fuel num_steps cl w) = Ok b ->
    run0 (snd (while_loop fuel num_steps cl w)) < 50.
Proof.
  induction fuel as [|f IH]; intros w b Hlt.
  - cbn [while_loop]. cbv beta iota delta [bind get ret].
    destruct (Z.of_nat (run0 w) <=? num_steps)%Z; intros _; exact Hlt.
  - cbn [while_loop]. cbv beta iota delta [bind get ret].
    destruct (Z.of_nat (run0 w) <=? num_steps)%Z; [|intros _; exact Hlt].
    pose proof (@optimizer_step_below_fifty w) as Hs.
    destruct (optimizer_step cl w) as [[u|e] w1]; cbn [fst snd] in *; [|discriminate].
    apply IH. now apply (Hs u).
Qed.

End FiftiethCall.

Lemma run_after_assembly (cnn : list (layer P))
    (mean std content_img style_img input_img0 : Tensor R)
    (num_steps : Z) (sw cw : R) (w w1 : world)
    (m : Sequential R P) (sl cl : list (Tap R)) :
  get_style_model_and_losses cnn mean std style_img content_img
    content_layers_default style_layers_default w = (Ok (m, sl, cl), w1) ->
  exists w2,
    run0 w2 = 0 /\ input_img w2 = input_img0 /\
    closure_calls w2 = closure_calls w /\ outer_steps w2 = outer_steps w /\
    run_style_transfer cnn mean std content_img style_img input_img0 num_steps sw cw w
    = match while_loop (Z.to_nat (num_steps + 1)) num_steps
              (closure m sl cl sw cw) w2 with
      | (Ok true, w3) =>
          (Ok (Some (clamp_ (input_img w3))),
           set_input_img (clamp_ (input_img w3)) w3)
      | (Ok false, w3) => (Ok None, w3)
      | (Raise e, w3) => (Raise e, w3)
      end.
Proof.
  intros H.
  pose proof (keeps_assembly cnn mean std style_img content_img
                content_layers_default style_layers_default w) as K.
  unfold run_style_transfer, run_style_transfer_fuel.
  cbv beta iota delta [bind]. rewrite H in *. cbn [snd] in K. destruct K as (_ & K1 & K2).
  cbv beta iota delta [modify get ret].
  exists (set_run0 0 (print (Line "Optimizing..")
            (set_ost lbfgs_init
               (set_input_grad None (set_input_img input_img0 w1))))).
  split; [reflexivity|]. split; [reflexivity|].
  split; [exact K1|]. split; [exact K2|].
  destruct (while_loop _ _ _ _) as [[[|]|e] w3]; reflexivity.
Qed.

(** X10. When model assembly records no loss at all, [run_style_transfer]
    with a step budget that is not negative never returns an image: it
    raises in the first call of the closure, during the first outer step.
    With a negative budget the loop is skipped: the image given is returned
    clamped, without any outer step or call of the closure. *)
Theorem run_without_losses_raises (cnn : list (layer P))
    (mean std content_img style_img input_img0 : Tensor R)
    (num_steps : Z) (sw cw : R) (w w1 : world) (m : Sequential R P) :
  get_style_model_and_losses cnn mean std style_img content_img
    content_layers_default style_layers_default w = (Ok (m, [], []), w1) ->
  ((0 <= num_steps)%Z ->
   (exists e, fst (run_style_transfer cnn mean std content_img style_img
                     input_img0 num_steps sw cw w) = Raise e) /\
   outer_steps (snd (run_style_transfer cnn mean std content_img style_img
                       input_img0 num_steps sw cw w)) = outer_steps w + 1 /\
   closure_calls (snd (run_style_transfer cnn mean std content_img style_img
                         input_img0 num_steps sw cw w)) = closure_calls w + 1) /\
  ((num_steps < 0)%Z ->
   fst (run_style_transfer cnn mean std content_img style_img
          input_img0 num_steps sw cw w) = Ok (Some (clamp_ input_img0)) /\
   outer_steps (snd (run_style_transfer cnn mean std content_img style_img
                       input_img0 num_steps sw cw w)) = outer_steps w /\
   closure_calls (snd (run_style_transfer cnn mean std content_img style_img
                         input_img0 num_steps sw cw w)) = closure_calls w).
Proof.
  intros H.
  destruct (@run_after_assembly cnn mean std content_img style_img input_img0
              num_steps sw cw _ _ _ _ _ H) as (w2 & H0 & Hi & Hc & Ho & ->).
  split.
  - intros Hn.
    destruct (Z.to_nat (num_steps + 1)) as [|f] eqn:Ef; [lia|].
    cbn [while_loop]. cbv beta iota delta [bind get ret]. rewrite H0.
    destruct (Z.leb_spec (Z.of_nat 0) num_steps) as [_|Hlt]; [|lia].
    unfold optimizer_step. cbv beta iota delta [bind get modify ret].
    destruct (closure_without_losses m sw cw (count_step w2)) as [e He].
    destruct (closure_counts m [] [] sw cw (count_step w2)) as (C1 & C2 & _).
    destruct (closure m [] [] sw cw (count_step w2)) as [[s|e1] w3];
      cbn [fst snd outer_steps closure_calls count_step] in *; [discriminate|].
    split; [eauto|]. lia.
  - intros Hn.
    replace (Z.to_nat (num_steps + 1)) with 0 by lia.
    cbn [while_loop]. cbv beta iota delta [bind get ret]. rewrite H0.
    destruct (Z.leb_spec (Z.of_nat 0) num_steps) as [Hle|_]; [lia|].
    cbn [fst snd outer_steps closure_calls set_input_img].
    rewrite Hi. repeat split; assumption.
Qed.

(** X11. When model assembly records no content loss, or no style loss,
    [run_style_transfer] with a budget of 49 steps or more never returns an
    image: the fiftieth call of the closure, which reports the scores,
    raises, unless an earlier call has already raised. *)
Theorem run_with_missing_losses_raises (cnn : list (layer P))
    (mean std content_img style_img input_img0 : Tensor R)
    (num_steps : Z) (sw cw : R) (w w1 : world)
    (m : Sequential R P) (sl cl : list (Tap R)) :
  get_style_model_and_losses cnn mean std style_img content_img
    content_layers_default style_layers_default w = (Ok (m, sl, cl), w1) ->
  sl = [] \/ cl = [] ->
  (49 <= num_steps)%Z ->
  exists e, fst (run_style_transfer cnn mean std content_img style_img
                   input_img0 num_steps sw cw w) = Raise e.
Proof.
  intros H Hempty Hn.
  destruct (@run_after_assembly cnn mean std content_img style_img input_img0
              num_steps sw cw _ _ _ _ _ H) as (w2 & H0 & _ & _ & _ & ->).
  pose proof (@while_loop_below_fifty (closure m sl cl sw cw)
                (closure_counts m sl cl sw cw)
                (fun w0 => @closure_report_raises _ _ _ m sl cl sw cw w0 Hempty)
                num_steps (Z.to_nat (num_steps + 1)) w2) as Hb.
  destruct (while_loop_counts (closure_counts m sl cl sw cw) num_steps
              (Z.to_nat (num_steps + 1)) w2)
    as (ds & dc & _ & _ & _ & L4 & _ & _ & _ & L7).
  destruct (while_loop (Z.to_nat (num_steps + 1)) num_steps
              (closure m sl cl sw cw) w2)
    as [[b|e] w3]; cbn [fst snd] in *; [|eauto].
  specialize (Hb b ltac:(lia) eq_refl).
  destruct (L7 b eq_refl) as (J1 & J2 & J3).
  destruct b; [specialize (J2 eq_refl)|specialize (J3 eq_refl)]; lia.
Qed.

End RunOutcomes.

(** ** The shape of the image returned *)

Section RunShape.
Context {R : Type} `{SR : Scalar R} `{BE : @Backend R SR}.
Local Open Scope m_scope.

(** The optimizer moves the image in place: its iterate has the shape of the
    image it was given. *)
Hypothesis Hdir :
  forall s x g l s' x', lbfgs_direction s x g l = Some (s', x') -> shape x' = shape x.

Section AnyShapeKeepingClosure.
Variable cl : M (@score R).
Hypothesis Hcl : forall w, shape (input_img (snd (cl w))) = shape (input_img w).

Lemma lbfgs_iterate_shape (left : nat) :
  forall (loss : R) (w : world),
    shape (input_img (snd (lbfgs_iterate left cl loss w))) = shape (input_img w).
Proof.
  induction left as [|k IH]; intros loss w; [reflexivity|].
  cbn [lbfgs_iterate]. cbv beta iota delta [bind get modify ret].
  destruct (lbfgs_direction (ost w) (input_img w) (input_grad w) loss)
    as [[s x]|] eqn:Ed; [|reflexivity].
  apply Hdir in Ed.
  destruct k as [|k]; [exact Ed|].
  pose proof (Hcl (set_input_img x (set_ost s w))) as Hc.
  destruct (cl (set_input_img x (set_ost s w))) as [[l|e] w2]; cbn [snd] in *;
    cbn [input_img set_input_img set_ost] in Hc; [|congruence].
  destruct (lbfgs_break (ost w2) (input_grad w2) (score_value l)); cbn [snd];
    [congruence|].
  rewrite IH. congruence.
Qed.

Lemma optimizer_step_shape (w : world) :
  shape (input_img (snd (optimizer_step cl w))) = shape (input_img w).
Proof.
  unfold optimizer_step. cbv beta iota delta [bind get modify ret].
  pose proof (Hcl (count_step w)) as Hc.
  destruct (cl (count_step w)) as [[l|e] w1]; cbn [snd] in *;
    cbn [input_img count_step] in Hc; [|exact Hc].
  destruct (lbfgs_optimal (input_grad w1)); cbn [snd]; [exact Hc|].
  now rewrite lbfgs_iterate_shape.
Qed.

Lemma while_loop_shape (num_steps : Z) (fuel : nat) :
  forall w : world,
    shape (input_img (snd (while_loop fuel num_steps cl w))) = shape (input_img w).
Proof.
  induction fuel as [|f IH]; intros w; cbn [while_loop];
    cbv beta iota delta [bind get ret].
  - destruct (Z.of_nat (run0 w) <=? num_steps)%Z; reflexivity.
  - destruct (Z.of_nat (run0 w) <=? num_steps)%Z; [|reflexivity].
    pose proof (optimizer_step_shape w) as Hs.
    destruct (optimizer_step cl w) as [[u|e] w1]; cbn [snd] in *; [|exact Hs].
    now rewrite IH.
Qed.

End AnyShapeKeepingClosure.

(** X12. The image [run_style_transfer] returns has the shape of the image it
    was given to optimize: the closure only clamps it, and the optimizer only
    moves it in place. *)
Theorem run_style_transfer_keeps_shape (cnn : list (layer P))
    (mean std content_img style_img input_img0 : Tensor R)
    (num_steps : Z) (sw cw : R) (w : world) (img : Tensor R) :
  fst (run_style_transfer cnn mean std content_img style_img input_img0
         num_steps sw cw w) = Ok (Some img) ->
  shape img = shape input_img0.
Proof.
  destruct (get_style_model_and_losses cnn mean std style_img content_img
              content_layers_default style_layers_default w)
    as [[[[m sl] cl]|e] w1] eqn:H.
  2:{ unfold run_style_transfer, run_style_transfer_fuel.
      cbv beta iota delta [bind]. rewrite H. discriminate. }
  destruct (@run_after_assembly _ _ _ cnn mean std content_img style_img input_img0
              num_steps sw cw _ _ _ _ _ H) as (w2 & _ & Hi & _ & _ & ->).
  pose proof (@while_loop_shape (closure m sl cl sw cw)
                (fun w0 => f_equal shape (closure_image m sl cl sw cw w0))
                num_steps (Z.to_nat (num_steps + 1)) w2) as Hs.
  destruct (while_loop (Z.to_nat (num_steps + 1)) num_steps
              (closure m sl cl sw cw) w2)
    as [[[|]|e] w3]; cbn [fst snd] in *; try discriminate.
  intros [= <-]. cbn [clamp_ shape]. now rewrite Hs, Hi.
Qed.

End RunShape.

(** ** Losses at the target *)

Section ZeroLoss.
Context {R : Type} `{SR : Scalar R} `{BE : @Backend R SR}.

Hypothesis sub_diag : forall v : R, sub v v = zero.
Hypothesis mul_zero : mul zero zero = (zero : R).
Hypothesis add_zero : add zero zero = (zero : R).

Lemma sum_zeros (l : list R) : Forall (fun v => v = zero) l -> sum l = zero.
Proof.
  unfold sum. induction 1 as [|v l -> _ IH]; [reflexivity|].
  cbn [fold_left]. now rewrite add_zero.
Qed.

Lemma mse_spec_self (x : Tensor R) :
  mse_spec x x = div zero (of_nat (length (data x))).
Proof.
  unfold mse_spec. f_equal. apply sum_zeros. apply Forall_forall.
  intros v Hv. apply in_map_iff in Hv. destruct Hv as ([a b] & <- & Hin).
  assert (a = b) as ->.
  { clear -Hin. induction (data x) as [|y l IH]; [destruct Hin|].
    destruct Hin as [[= -> ->]|Hin]; auto. }
  cbn [fst snd]. now rewrite sub_diag, mul_zero.
Qed.

(** X13. A loss tap evaluated on what its target was made from stores a zero
    loss (zero divided by the number of elements compared): a ContentLoss
    evaluated on its own target, and a StyleLoss evaluated on the feature map
    its target Gram matrix was computed from. *)
Theorem loss_at_target_is_zero :
  (forall (self : Tap R) (w : world),
      wf (target self) ->
      ContentLoss_forward self (target self) w
      = (Ok (target self),
         set_heap (update_nth (heap w) (cell self)
                     (Some (div zero (of_nat (length (data (target self))))))) w)) /\
  (forall (self : Tap R) (feature : Tensor R) (b c h wd : nat) (w : world),
      shape feature = [b; c; h; wd] ->
      target self = gram_spec b c h wd feature ->
      StyleLoss_forward self feature w
      = (Ok feature,
         set_heap (update_nth (heap w) (cell self)
                     (Some (div zero (of_nat ((b * c) * (b * c)))))) w)).
Proof.
  split.
  - intros self w Hwf.
    unfold ContentLoss_forward, bind, lift, store_loss, modify, ret.
    rewrite mse_loss_same_shape by auto. now rewrite mse_spec_self.
  - intros self feature b c h wd w Hs Ht.
    unfold StyleLoss_forward, bind, lift, store_loss, modify, ret.
    rewrite (gram_matrix_eq _ Hs), Ht.
    rewrite mse_loss_same_shape by auto using wf_gram_spec.
    rewrite mse_spec_self. cbn [gram_spec data]. now rewrite length_grid.
Qed.

End ZeroLoss.

(** ** The names the walk gives *)

Section Names.
Context {R : Type} `{SR : Scalar R} `{BE : @Backend R SR}.

(** X14. Over a feature extractor of recognised layers, the names the walk
    produces that start with "conv_" are conv_1, conv_2, ... in order, one for
    each convolution: the k-th convolution is named conv_k, whatever layers
    lie between the convolutions. *)
Theorem convolutions_numbered (cnn : list (layer P)) :
  forall i : nat,
    forallb recognized cnn = true ->
    filter (starts_with "conv_") (walk_names i cnn)
    = map (fun k => ("conv_" ++ string_of_nat k)%string)
          (seq (S i)
               (length (filter (fun l => match l with
                                         | Conv2d _ => true
                                         | _ => false
                                         end) cnn))).
Proof.
  induction cnn as [|l rest IH]; intros i Hrec; [reflexivity|].
  cbn [forallb] in Hrec. apply andb_prop in Hrec. destruct Hrec as [Hl Hrest].
  destruct l; try discriminate; cbn [walk_names name_layer filter length seq map].
  - change (starts_with "conv_" ("conv_" ++ string_of_nat (S i))) with true.
    cbv iota. f_equal. now apply IH.
  - change (starts_with "conv_" ("relu_" ++ string_of_nat i)) with false.
    cbv iota. now apply IH.
  - change (starts_with "conv_" ("pool_" ++ string_of_nat i)) with false.
    cbv iota. now apply IH.
  - change (starts_with "conv_" ("bn_" ++ string_of_nat i)) with false.
    cbv iota. now apply IH.
Qed.

End Names.

(** ** Normalization: one mean and one deviation per channel *)

Section PerChannel.
Context {R : Type} `{SR : Scalar R}.

Lemma firstn_one_skipn (l : list R) (k : nat) :
  k < length l -> firstn 1 (skipn k l) = [at_ l k].
Proof.
  revert k. induction l as [|a l IH]; intros k Hk; [cbn in Hk; lia|].
  destruct k as [|k]; [reflexivity|]. cbn [skipn]. unfold at_. cbn [nth].
  apply IH. cbn in Hk. lia.
Qed.

Lemma flat_map_const {A} (v : list R) (l : list A) :
  flat_map (fun _ => v) l = concat (repeat v (length l)).
Proof. induction l as [|a l IH]; [reflexivity|]. cbn. now rewrite IH. Qed.

Lemma concat_repeat_singleton (v : R) (n : nat) :
  concat (repeat [v] n) = repeat v n.
Proof. induction n as [|n IH]; [reflexivity|]. cbn. now rewrite IH. Qed.

Lemma concat_repeat_repeat (v : R) (n m : nat) :
  concat (repeat (repeat v m) n) = repeat v (n * m).
Proof.
  induction n as [|n IH]; [reflexivity|]. cbn. now rewrite IH, repeat_app.
Qed.

Lemma at_repeat (v : R) (n q : nat) : q < n -> at_ (repeat v n) q = v.
Proof.
  revert q. induction n as [|n IH]; intros q Hq; [lia|].
  destruct q as [|q]; [reflexivity|]. unfold at_ in *. cbn [repeat nth].
  apply IH. lia.
Qed.

(** The storage of a per-channel parameter of shape [c; 1; 1] expanded
    against an image of shape [b; c; h; w]: for each image of the batch, the
    parameter of each channel repeated over the positions. *)
Lemma expand_channel_rows (par : list R) (b c h w : nat) :
  length par = c ->
  expand_data [1; c; 1; 1] [b; c; h; w] par
  = flat_map (fun _ => flat_map (fun i => repeat (at_ par i) (h * w)) (seq 0 c))
             (seq 0 b).
Proof.
  intros Hp.
  cbn [expand_data numel fold_right Nat.eqb Nat.mul Nat.add skipn].
  rewrite !Nat.mul_1_r.
  replace (firstn c par) with par by (now rewrite <- Hp, firstn_all).
  apply rows_ext. intros _ _. apply rows_ext. intros i Hi.
  assert (Hsel : (if c =? 1 then 0 else i) * 1 = i).
  { destruct (Nat.eqb_spec c 1); lia. }
  rewrite Hsel, firstn_one_skipn by lia. cbn [firstn].
  rewrite (flat_map_const [at_ par i]), length_seq, concat_repeat_singleton.
  rewrite (flat_map_const (repeat (at_ par i) w)), length_seq.
  apply concat_repeat_repeat.
Qed.

Lemma length_expand_channel (par : list R) (b c h w : nat) :
  length par = c ->
  length (expand_data [1; c; 1; 1] [b; c; h; w] par) = b * (c * (h * w)).
Proof.
  intros Hp. rewrite expand_channel_rows by exact Hp.
  apply length_rows. intros _ _. apply length_rows. intros. apply repeat_length.
Qed.

Lemma at_expand_channel (par : list R) (b c h w bi ci y x : nat) :
  length par = c -> bi < b -> ci < c -> y < h -> x < w ->
  at_ (expand_data [1; c; 1; 1] [b; c; h; w] par) (((bi * c + ci) * h + y) * w + x)
  = at_ par ci.
Proof.
  intros Hp Hbi Hci Hy Hx. rewrite expand_channel_rows by exact Hp.
  replace (((bi * c + ci) * h + y) * w + x)
    with (bi * (c * (h * w)) + (ci * (h * w) + (y * w + x))) by nia.
  assert (Hq1 : y * w + x < h * w) by nia.
  assert (Hq2 : ci * (h * w) + (y * w + x) < c * (h * w)).
  { generalize dependent (h * w). intros T HT1.
    generalize dependent (y * w + x). intros q Hq. nia. }
  unfold at_ at 1.
  rewrite (nth_rows _ (L := c * (h * w)));
    [|intros; apply length_rows; intros; apply repeat_length|exact Hbi|exact Hq2].
  rewrite (nth_rows _ (L := h * w));
    [|intros; apply repeat_length|exact Hci|exact Hq1].
  now apply at_repeat.
Qed.

Lemma index_bound (b c h w bi ci y x : nat) :
  bi < b -> ci < c -> y < h -> x < w ->
  ((bi * c + ci) * h + y) * w + x < b * (c * (h * w)).
Proof.
  intros Hbi Hci Hy Hx.
  assert (H1 : bi * c + ci < b * c) by nia.
  assert (H2 : (bi * c + ci) * h + y < b * c * h).
  { generalize dependent (bi * c + ci). generalize dependent (b * c). intros; nia. }
  assert (H3 : ((bi * c + ci) * h + y) * w + x < b * c * h * w).
  { generalize dependent ((bi * c + ci) * h + y). generalize dependent (b * c * h).
    intros; nia. }
  now rewrite <- !Nat.mul_assoc in H3.
Qed.

Lemma at_map_combine (f : R -> R -> R) (l1 l2 : list R) (k : nat) :
  length l1 = length l2 -> k < length l1 ->
  at_ (map (fun ab => f (fst ab) (snd ab)) (combine l1 l2)) k
  = f (at_ l1 k) (at_ l2 k).
Proof.
  intros Hl Hk. unfold at_.
  rewrite (nth_indep _ zero ((fun ab => f (fst ab) (snd ab)) (zero, zero)))
    by (rewrite length_map, length_combine; lia).
  rewrite (map_nth (fun ab => f (fst ab) (snd ab))).
  now rewrite combine_nth.
Qed.

(** An elementwise operation between an image and a per-channel parameter. *)
Lemma broadcast_channel (f : R -> R -> R) (img par : Tensor R) (b c h w : nat) :
  shape img = [b; c; h; w] -> wf img ->
  shape par = [c; 1; 1] -> length (data par) = c ->
  exists out,
    broadcast_op f img par = Ok out /\
    shape out = [b; c; h; w] /\ wf out /\
    forall bi ci y x, bi < b -> ci < c -> y < h -> x < w ->
      at_ (data out) (((bi * c + ci) * h + y) * w + x)
      = f (at_ (data img) (((bi * c + ci) * h + y) * w + x)) (at_ (data par) ci).
Proof.
  intros Hs Hwf Hps Hpl. unfold broadcast_op. rewrite Hs, Hps.
  cbn [length Nat.max pad_shape Nat.sub repeat app broadcast_aligned].
  assert (Hd : forall a, broadcast_dim a 1 = Some a).
  { intros a. unfold broadcast_dim. cbn [Nat.eqb].
    destruct (Nat.eqb_spec a 1) as [->|]; [reflexivity|].
    destruct (a =? 1); reflexivity. }
  rewrite !Hd. unfold broadcast_dim at 1. rewrite Nat.eqb_refl.
  unfold wf in Hwf. rewrite Hs in Hwf.
  rewrite expand_data_same by exact Hwf.
  pose proof (length_expand_channel (data par) b h w Hpl) as Hlen.
  cbn [numel fold_right] in Hwf.
  eexists. split; [reflexivity|]. cbn [shape data]. split; [reflexivity|]. split.
  - unfold wf. cbn [shape data numel fold_right].
    rewrite length_map, length_combine, Hlen, Hwf. lia.
  - intros bi ci y x Hbi Hci Hy Hx.
    pose proof (index_bound Hbi Hci Hy Hx) as Hidx.
    rewrite at_map_combine by (rewrite ?Hlen, Hwf; rewrite ?Nat.mul_1_r; lia).
    f_equal. now apply at_expand_channel.
Qed.

(** [Normalization.forward] on a mean and a deviation already viewed as
    (channels, 1, 1). *)
Lemma Normalization_forward_per_channel (mean std img : Tensor R) (b c h w : nat) :
  shape img = [b; c; h; w] -> wf img ->
  shape mean = [c; 1; 1] -> length (data mean) = c ->
  shape std = [c; 1; 1] -> length (data std) = c ->
  exists out,
    Normalization_forward mean std img = Ok out /\
    shape out = [b; c; h; w] /\ wf out /\
    forall bi ci y x, bi < b -> ci < c -> y < h -> x < w ->
      at_ (data out) (((bi * c + ci) * h + y) * w + x)
      = div (sub (at_ (data img) (((bi * c + ci) * h + y) * w + x))
                 (at_ (data mean) ci))
            (at_ (data std) ci).
Proof.
  intros Hs Hwf Hms Hml Hss Hsl. unfold Normalization_forward.
  destruct (@broadcast_channel sub img mean b c h w Hs Hwf Hms Hml)
    as (centred & -> & Hcs & Hcwf & Hcv).
  cbn [rbind].
  destruct (@broadcast_channel div centred std b c h w Hcs Hcwf Hss Hsl)
    as (out & -> & Hos & Howf & Hov).
  exists out. repeat split; try assumption.
  intros bi ci y x Hbi Hci Hy Hx. now rewrite Hov, Hcv.
Qed.

(** X16. When the image has a number of channels that is neither the number
    of means nor 1, and there is more than one mean, [Normalization.forward]
    raises the RuntimeError of the tensor library: the channels cannot be
    broadcast against the means. *)
Theorem Normalization_forward_channel_mismatch (mean std img : Tensor R)
    (b c h w k : nat) :
  shape img = [b; c; h; w] -> shape mean = [k; 1; 1] ->
  c <> k -> c <> 1 -> k <> 1 ->
  Normalization_forward mean std img
  = Raise (RuntimeError "The size of tensor a must match the size of tensor b").
Proof.
  intros Hs Hms Hck Hc1 Hk1. unfold Normalization_forward, broadcast_op.
  rewrite Hs, Hms.
  cbn [length Nat.max pad_shape Nat.sub repeat app broadcast_aligned].
  assert (Hd : broadcast_dim c k = None).
  { unfold broadcast_dim.
    destruct (Nat.eqb_spec c k); [contradiction|].
    destruct (Nat.eqb_spec c 1); [contradiction|].
    destruct (Nat.eqb_spec k 1); [contradiction|reflexivity]. }
  rewrite Hd. destruct (broadcast_dim b 1); reflexivity.
Qed.

End PerChannel.

Section NormalizationModule.
Context {R : Type} `{SR : Scalar R} `{BE : @Backend R SR}.

(** X15. [Normalization(mean, std)] built from a mean and a deviation of
    [c] > 0 values each, evaluated on an image of shape (batch, c, height,
    width), returns a tensor of the shape of the image whose value at
    (bi, ci, y, x) is the value of the image there, minus the mean of
    channel ci, divided by the deviation of channel ci; the state is left
    untouched. *)
Theorem Normalization_per_channel (mean std img : Tensor R) (b c h w : nat)
    (wd : world) :
  shape img = [b; c; h; w] -> wf img ->
  wf mean -> numel (shape mean) = c ->
  wf std -> numel (shape std) = c ->
  0 < c ->
  exists nm out,
    Normalization_init mean std = Ok nm /\
    module_forward nm img wd = (Ok out, wd) /\
    shape out = [b; c; h; w] /\ wf out /\
    forall bi ci y x, bi < b -> ci < c -> y < h -> x < w ->
      at_ (data out) (((bi * c + ci) * h + y) * w + x)
      = div (sub (at_ (data img) (((bi * c + ci) * h + y) * w + x))
                 (at_ (data mean) ci))
            (at_ (data std) ci).
Proof.
  intros Hs Hwf Hmwf Hmn Hswf Hsn Hc.
  rewrite Normalization_init_total, Hmn, Hsn.
  destruct (@Normalization_forward_per_channel _ _
              (mkTensor [c; 1; 1] (data mean)) (mkTensor [c; 1; 1] (data std))
              img b c h w Hs Hwf eq_refl (eq_trans Hmwf Hmn) eq_refl
              (eq_trans Hswf Hsn))
    as (out & Hout & Hos & Howf & Hov).
  eexists _, out. split; [reflexivity|].
  cbn [module_forward]. unfold lift. rewrite Hout.
  repeat split; assumption.
Qed.

End NormalizationModule.

(** * Concrete runs of the further properties *)

Local Open Scope Z_scope.

(** X1, at a rank-4 tensor, at one with a dimension of zero, and at a rank-3
    tensor. *)
Lemma gram_matrix_rank_witness :
  (exists G, gram_matrix feature_2ch = Ok G /\ shape G = [1 * 2; 1 * 2]%nat /\ wf G) /\
  (exists G, gram_matrix (mkTensor [1; 0; 2; 2]%nat ([] : list Z)) = Ok G /\
             shape G = [1 * 0; 1 * 0]%nat /\ wf G) /\
  (exists msg, gram_matrix (mkTensor [1; 1; 1]%nat [1]) = Raise (ValueError msg)).
Proof.
  split; [|split].
  - apply (proj1 (@gram_matrix_rank Z Scalar_Z feature_2ch) 1 2 1 3)%nat.
    reflexivity.
  - apply (proj1 (@gram_matrix_rank Z Scalar_Z (mkTensor [1; 0; 2; 2]%nat []))
                 1 0 2 2)%nat.
    reflexivity.
  - apply (proj2 (@gram_matrix_rank Z Scalar_Z (mkTensor [1; 1; 1]%nat [1]))).
    discriminate.
Defined.

(** X2, at three convolutions under the default taps. *)
Lemma assembled_names_distinct_witness :
  exists m sl cl w',
    @get_style_model_and_losses Z Scalar_Z Backend_still
      [Conv2d tt; ReLU true; ReLU true; Conv2d tt; Conv2d tt]
      mean0 std1 image_1x1 image_2x2 content_layers_default style_layers_default
      world0 = (Ok (m, sl, cl), w') /\
    NoDup (map fst m).
Proof.
  eexists _, _, _, _. split; [vm_compute; reflexivity|].
  eapply (@assembled_names_distinct Z Scalar_Z Backend_still
            [Conv2d tt; ReLU true; ReLU true; Conv2d tt; Conv2d tt]
            mean0 std1 image_1x1 image_2x2 content_layers_default
            style_layers_default world0).
  vm_compute. reflexivity.
Defined.

(** X3, at a convolution followed by an in-place activation. *)
Lemma assembled_model_modules_witness :
  exists m sl cl w',
    @get_style_model_and_losses Z Scalar_Z Backend_still
      [Conv2d tt; ReLU true; Conv2d tt]
      mean0 std1 image_1x1 image_2x2 content_layers_default style_layers_default
      world0 = (Ok (m, sl, cl), w') /\
    exists mean' std' rest,
      m = ("0"%string, Normalization (P := unit) mean' std') :: rest /\
      Forall (fun km => added_module (BE := Backend_still) (snd km) = true) rest.
Proof.
  eassert (H : @get_style_model_and_losses Z Scalar_Z Backend_still
                 [Conv2d tt; ReLU true; Conv2d tt]
                 mean0 std1 image_1x1 image_2x2 content_layers_default
                 style_layers_default world0 = (Ok (_, _, _), _))
    by (vm_compute; reflexivity).
  eexists _, _, _, _. split; [exact H|].
  apply assembled_model_modules in H.
  destruct H as (mean' & std' & rest & _ & _ & Hm & HF).
  exists mean', std', rest. split; assumption.
Defined.

(** X4, X5 and X6, at three convolutions under the default taps: four losses,
    four evaluations, four cells. *)
Lemma assembly_evaluations_witness :
  forwards (snd (@get_style_model_and_losses Z Scalar_Z Backend_still
                   [Conv2d tt; Conv2d tt; Conv2d tt] mean0 std1 image_1x1 image_2x2
                   content_layers_default style_layers_default world0))
  = (0 + (3 + 1))%nat /\
  heap_size (snd (@get_style_model_and_losses Z Scalar_Z Backend_still
                    [Conv2d tt; Conv2d tt; Conv2d tt] mean0 std1 image_1x1 image_2x2
                    content_layers_default style_layers_default world0))
  = (0 + (3 + 1))%nat.
Proof.
  eapply (@assembly_evaluations Z Scalar_Z Backend_still
            [Conv2d tt; Conv2d tt; Conv2d tt] mean0 std1 image_1x1 image_2x2
            content_layers_default style_layers_default world0 _ _ [_; _; _] [_]).
  vm_compute. reflexivity.
Defined.

Lemma assembly_losses_separate_witness :
  exists m sl cl w',
    @get_style_model_and_losses Z Scalar_Z Backend_still
      [Conv2d tt; Conv2d tt; Conv2d tt] mean0 std1 image_1x1 image_2x2
      content_layers_default style_layers_default world0 = (Ok (m, sl, cl), w') /\
    NoDup (map (@cell Z) (cl ++ sl)).
Proof.
  eexists _, _, _, _. split; [vm_compute; reflexivity|].
  eapply (@assembly_losses_separate Z Scalar_Z Backend_still
            [Conv2d tt; Conv2d tt; Conv2d tt] mean0 std1 image_1x1 image_2x2
            content_layers_default style_layers_default world0).
  vm_compute. reflexivity.
Defined.

Lemma assembly_loss_counts_witness :
  exists m sl cl w',
    @get_style_model_and_losses Z Scalar_Z Backend_still
      [Conv2d tt; Conv2d tt; Conv2d tt] mean0 std1 image_1x1 image_2x2
      content_layers_default style_layers_default world0 = (Ok (m, sl, cl), w') /\
    length cl = 1%nat /\ length sl = 3%nat.
Proof.
  eassert (H : @get_style_model_and_losses Z Scalar_Z Backend_still
                 [Conv2d tt; Conv2d tt; Conv2d tt]
                 mean0 std1 image_1x1 image_2x2 content_layers_default
                 style_layers_default world0 = (Ok (_, _, _), _))
    by (vm_compute; reflexivity).
  eexists _, _, _, _. split; [exact H|].
  apply assembly_loss_counts in H. destruct H as (Hc & Hs & _).
  vm_compute in Hc, Hs. split; [exact Hc|exact Hs].
Defined.

(** X7 and X8, at a model of one content tap in cell 0, with another loss
    stored in cell 1. *)
Lemma evaluation_leaves_other_losses_witness :
  loss_at (snd (@call_model Z Scalar_Z Backend_still
                  [("content_loss_1"%string, LossModule tap_1x2)] image_wild
                  world_two_cells))
          1
  = Some 5.
Proof.
  rewrite (@evaluation_leaves_other_losses Z Scalar_Z Backend_still
             [("content_loss_1"%string, LossModule tap_1x2)] image_wild
             world_two_cells 1).
  - reflexivity.
  - intros tp [<-|[]]. discriminate.
Defined.

Lemma evaluation_stores_every_loss_witness :
  exists y w' l,
    @call_model Z Scalar_Z Backend_still
      [("content_loss_1"%string, LossModule tap_1x2)] image_wild
      world_two_cells = (Ok y, w') /\
    read_loss tap_1x2 w' = (Ok l, w').
Proof.
  eexists _, _, _. split; [vm_compute; reflexivity|].
  assert (Hin : In tap_1x2
                  (model_taps (BE := Backend_still)
                     [("content_loss_1"%string, LossModule tap_1x2)]))
    by (now left).
  assert (Hc : (cell tap_1x2
                < heap_size (BE := Backend_still)
                    world_two_cells)%nat)
    by (vm_compute; lia).
  destruct (@evaluation_stores_every_loss Z Scalar_Z Backend_still
              [("content_loss_1"%string, LossModule tap_1x2)] image_wild _ _ _
              tap_1x2 eq_refl Hin Hc) as [l Hl].
  vm_compute in Hl. injection Hl as <-. vm_compute. reflexivity.
Defined.

(** X9, at a working image with values outside [0, 1]. *)
Lemma closure_clamps_image_witness :
  Forall in_unit
    (data (input_img
             (snd (@closure Z Scalar_Z Backend_still [] [] [] 1 1
                     world_wild)))).
Proof.
  exact (proj2 (@closure_clamps_image Z Scalar_Z Backend_still [] [] [] 1 1
                  world_wild)
               Z_leb_total Z_zero_le_one).
Defined.

(** X10, at a feature extractor without convolution, with a budget of two
    steps and with a negative budget. *)
Lemma run_without_losses_raises_witness :
  (exists e,
      fst (@run_style_transfer Z Scalar_Z Backend_still [ReLU true]
             mean0 std1 image_1x2 image_1x2 image_wild 2 1 1 world0) = Raise e) /\
  fst (@run_style_transfer Z Scalar_Z Backend_still [ReLU true]
         mean0 std1 image_1x2 image_1x2 image_wild (-1) 1 1 world0)
  = Ok (Some (clamp_ image_wild)).
Proof.
  assert (H : @get_style_model_and_losses Z Scalar_Z Backend_still [ReLU true]
                mean0 std1 image_1x2 image_1x2 content_layers_default
                style_layers_default world0
              = (Ok ([("0"%string, Normalization (mkTensor [1; 1; 1]%nat [0])
                                                 (mkTensor [1; 1; 1]%nat [1]))],
                     [], []), world0))
    by (vm_compute; reflexivity).
  split.
  - apply (proj1 (@run_without_losses_raises Z Scalar_Z Backend_still [ReLU true]
                    mean0 std1 image_1x2 image_1x2 image_wild 2 1 1 world0 _ _ H)).
    discriminate.
  - apply (proj2 (@run_without_losses_raises Z Scalar_Z Backend_still [ReLU true]
                    mean0 std1 image_1x2 image_1x2 image_wild (-1) 1 1 world0 _ _ H)).
    reflexivity.
Defined.

(** X11, at one convolution under the default taps (a style loss and no
    content loss) with a budget of 49 steps, in a run that starts where the
    style loss is zero. *)
Lemma run_with_missing_losses_raises_witness :
  exists e,
    fst (@run_style_transfer Z Scalar_Z Backend_still [Conv2d tt; ReLU true]
           mean0 std1 image_01 image_01 image_01 49 1 1 world0) = Raise e.
Proof.
  eapply (@run_with_missing_losses_raises Z Scalar_Z Backend_still
            [Conv2d tt; ReLU true] mean0 std1 image_01 image_01 image_01
            49 1 1 world0).
  - vm_compute. reflexivity.
  - right. reflexivity.
  - apply Z.le_refl.
Defined.

(** X12, at a run that starts where every loss is zero. *)
Lemma run_style_transfer_keeps_shape_witness :
  exists img,
    fst (@run_style_transfer Z Scalar_Z Backend_still [Conv2d tt; ReLU true]
           mean0 std1 image_01 image_01 image_01 2 1 1 world0) = Ok (Some img) /\
    shape img = shape image_01.
Proof.
  eexists. split; [vm_compute; reflexivity|].
  apply (@run_style_transfer_keeps_shape Z Scalar_Z Backend_still
           (fun s x g l s' x' E =>
              match E in _ = o
                    return match o with Some (_, x'') => shape x'' = shape x | None => True end
              with eq_refl => I end)
           [Conv2d tt; ReLU true] mean0 std1 image_01 image_01 image_01
           2 1 1 world0).
  vm_compute. reflexivity.
Defined.

(** X13, over the integers. *)
Lemma loss_at_target_is_zero_witness :
  @ContentLoss_forward Z Scalar_Z Backend_still tap_1x2 image_1x2 world0
  = (Ok image_1x2, set_heap [] world0).
Proof.
  change image_1x2 with (target tap_1x2).
  rewrite (proj1 (@loss_at_target_is_zero Z Scalar_Z Backend_still
                    Z.sub_diag eq_refl eq_refl) tap_1x2 world0 eq_refl).
  reflexivity.
Defined.

(** X14, at two convolutions with other layers around them. *)
Lemma convolutions_numbered_witness :
  filter (starts_with "conv_")
         (walk_names (BE := Backend_still) 0
            [ReLU true; Conv2d tt; ReLU true; MaxPool2d tt; Conv2d tt; BatchNorm2d tt])
  = ["conv_1"; "conv_2"]%string.
Proof.
  exact (@convolutions_numbered Z Scalar_Z Backend_still
           [ReLU true; Conv2d tt; ReLU true; MaxPool2d tt; Conv2d tt; BatchNorm2d tt]
           0%nat eq_refl).
Defined.

(** X15, at a single-channel image of 2 x 2. *)
Lemma Normalization_per_channel_witness :
  exists nm out,
    Normalization_init (BE := Backend_still) mean0 std1 = Ok nm /\
    module_forward nm image_2x2 world0 = (Ok out, world0) /\
    shape out = [1; 1; 2; 2]%nat.
Proof.
  destruct (@Normalization_per_channel Z Scalar_Z Backend_still mean0 std1 image_2x2
              1 1 2 2 world0 eq_refl eq_refl eq_refl eq_refl eq_refl eq_refl
              (le_n 1))
    as (nm & out & Hn & Hf & Hs & _).
  exists nm, out. repeat split; assumption.
Defined.

(** X16, at an image of two channels against three means. *)
Lemma Normalization_forward_channel_mismatch_witness :
  Normalization_forward (mkTensor [3; 1; 1]%nat [0; 0; 0])
                        (mkTensor [3; 1; 1]%nat [1; 1; 1]) feature_2ch
  = Raise (RuntimeError "The size of tensor a must match the size of tensor b").
Proof.
  apply (@Normalization_forward_channel_mismatch Z Scalar_Z
           (mkTensor [3; 1; 1]%nat [0; 0; 0]) (mkTensor [3; 1; 1]%nat [1; 1; 1])
           feature_2ch 1 2 1 3 3); try reflexivity; discriminate.
Defined.
